(** * JITxpr: a Pratt parser, its postfix rendering and the stack compiler

    A shallow embedding of [eval.cpp]: the tokenizer ([Lexer]), the
    precedence-climbing parser ([expr_bp]), the postfix rendering
    ([S::to_string]) and the translation of a postfix string into GNU
    lightning instructions ([compile_rpn]), followed by the properties
    the specification states about them. *)

From Equations Require Import Equations.
From Stdlib Require Import String Ascii List ZArith Lia Bool.
From stdpp Require Import base list.
Import ListNotations.
Open Scope string_scope.
Open Scope list_scope.

(** ** <cctype> in the "C" locale

    The source passes [char] values to [isspace], [isdigit] and
    [isalnum].  Bytes above 127 are in none of the three classes. *)

Definition isspace (c : ascii) : bool :=
  let n := nat_of_ascii c in
  ((9 <=? n) && (n <=? 13) || (n =? 32))%nat.

Definition isdigit (c : ascii) : bool :=
  let n := nat_of_ascii c in
  ((48 <=? n) && (n <=? 57))%nat.

Definition isalpha (c : ascii) : bool :=
  let n := nat_of_ascii c in
  ((65 <=? n) && (n <=? 90) || (97 <=? n) && (n <=? 122))%nat.

Definition isalnum (c : ascii) : bool := isdigit c || isalpha c.

(** ** Tokens *)

Inductive TokenType := Atom | Op | Eof.

Record Token := mkToken { type : TokenType; value : string }.

(** [Token(TokenType t, string v = "")]: the end marker has no text. *)
Definition EofToken : Token := mkToken Eof "".

(** [string(1, c)] *)
Definition string1 (c : ascii) : string := String c "".

(** [s[0]] of a [std::string]: the terminating NUL when [s] is empty. *)
Definition char0 (s : string) : ascii :=
  match s with
  | EmptyString => zero
  | String c _ => c
  end.

(** ** The tokenizer

    The constructor walks an index [i] over [input]; the embedding
    carries the unread suffix [input[i..]] instead.  [tokens] is the
    vector under construction, [emplace_back] appends at its end. *)

(** The inner loop [while (i < input.size() && isdigit(input[i])) ++i]:
    the digits it passes over, and what is left after them. *)
Fixpoint take_digits (s : string) : string :=
  match s with
  | EmptyString => EmptyString
  | String c r => if isdigit c then String c (take_digits r) else EmptyString
  end.

Fixpoint skip_digits (s : string) : string :=
  match s with
  | EmptyString => EmptyString
  | String c r => if isdigit c then skip_digits r else s
  end.

Equations? lex_loop (input : string) (tokens : list Token) : list Token
  by wf (String.length input) lt :=
  lex_loop EmptyString tokens := tokens;
  lex_loop (String c rest) tokens with isspace c := {
    | true := lex_loop rest tokens;
    | false with isdigit c := {
      | true :=
          lex_loop (skip_digits rest)
                   (tokens ++ [mkToken Atom (String c (take_digits rest))]);
      | false with isalnum c := {
        | true := lex_loop rest (tokens ++ [mkToken Atom (string1 c)]);
        | false := lex_loop rest (tokens ++ [mkToken Op (string1 c)]) } } }.
Proof.
  all: simpl; try lia.
  assert (H : forall s, (String.length (skip_digits s) <= String.length s)%nat).
  { induction s as [|d s IH]; simpl; [lia|].
    destruct (isdigit d); simpl; lia. }
  match goal with |- context [skip_digits ?r] => specialize (H r) end. lia.
Qed.

(** The cursor: [tokens] is the private vector, index 0 first. *)
Record Lexer := mkLexer { tokens : list Token }.

(** [Lexer::Lexer]: scan, append the end marker, reverse. *)
Definition Lexer_new (input : string) : Lexer :=
  mkLexer (rev (lex_loop input [] ++ [EofToken])).

(** [tokens.back()] and [tokens.pop_back()] on a non-empty vector. *)
Definition back (v : list Token) : Token := List.last v EofToken.
Definition pop_back (v : list Token) : list Token := removelast v.

(** [Lexer::next]: the token handed out and the cursor afterwards. *)
Definition next (lexer : Lexer) : Token * Lexer :=
  match tokens lexer with
  | [] => (EofToken, lexer)
  | _ :: _ => (back (tokens lexer), mkLexer (pop_back (tokens lexer)))
  end.

(** [Lexer::peek] *)
Definition peek (lexer : Lexer) : Token :=
  match tokens lexer with
  | [] => EofToken
  | _ :: _ => back (tokens lexer)
  end.

(** ** Expression trees ([struct S]) and their postfix rendering *)

#[warning="-register-all"]
Inductive Sexp := mkS (head : string) (rest : list Sexp).

Definition head (s : Sexp) : string := let 'mkS h _ := s in h.
Definition rest (s : Sexp) : list Sexp := let 'mkS _ r := s in r.

(** [S::to_string]: the stream [oss] starts empty, receives every child's
    rendering followed by a blank, then the head. *)
Fixpoint to_string (s : Sexp) : string :=
  match s with
  | mkS head rest =>
      (fold_left (fun oss s' => oss ++ to_string s' ++ " ") rest "" ++ head)
        %string
  end.

(** ** Binding powers *)

Open Scope Z_scope.

Definition infix_binding_power (op : ascii) : Z * Z :=
  match op with
  | "="%char => (2, 1)
  | "?"%char => (4, 3)
  | "+"%char | "-"%char => (5, 6)
  | "*"%char | "/"%char => (7, 8)
  | "."%char => (14, 13)
  | _ => (-1, -1)
  end.

Definition prefix_binding_power (op : ascii) : Z :=
  match op with
  | "+"%char | "-"%char => 9
  | "("%char => 15
  | _ => -1
  end.

Definition postfix_binding_power (op : ascii) : Z :=
  match op with
  | "!"%char | "["%char => 11
  | ")"%char => 12
  | _ => -1
  end.

(** ** The parser

    [expr_bp] recurses and loops without a bound of its own, so the
    embedding counts steps: one unit of [fuel] per call of [expr_bp] and
    per iteration of its [while (true)] loop.  A run is a result that
    some amount of fuel produces; [OutOfFuel] for every amount is a run
    that never comes back. *)

Inductive outcome (A : Type) :=
| Returns (a : A)
| Throws (what : string)
| OutOfFuel.
Arguments Returns {A} a.
Arguments Throws {A} what.
Arguments OutOfFuel {A}.

Definition bind {A B} (m : outcome A) (k : A -> outcome B) : outcome B :=
  match m with
  | Returns a => k a
  | Throws what => Throws what
  | OutOfFuel => OutOfFuel
  end.

Notation "'do' p <- m ; k" := (bind m (fun x => let 'p := x in k))
  (at level 10, p pattern, m at level 100, k at level 200).

Fixpoint expr_bp (fuel : nat) (lexer : Lexer) (min_bp : Z) {struct fuel}
  : outcome (Sexp * Lexer) :=
  match fuel with
  | O => OutOfFuel
  | S fuel =>
      let (token, lexer) := next lexer in
      match type token with
      | Atom => expr_loop fuel (mkS (value token) []) lexer min_bp
      | Op =>
          if String.eqb (value token) "(" then
            do (lhs, lexer) <- expr_bp fuel lexer 0;
            expr_loop fuel lhs lexer min_bp
          else
            let r_bp := prefix_binding_power (char0 (value token)) in
            do (rhs, lexer) <- expr_bp fuel lexer r_bp;
            expr_loop fuel (mkS (value token) [rhs]) lexer min_bp
      | Eof => Throws "Unexpected token"
      end
  end

(** The [while (true)] loop of [expr_bp], entered with the [lhs] built so
    far.  A lookahead that is neither the end marker nor an operator
    takes no branch of the body: the next iteration starts from the same
    [lhs] and the same cursor. *)
with expr_loop (fuel : nat) (lhs : Sexp) (lexer : Lexer) (min_bp : Z)
  {struct fuel} : outcome (Sexp * Lexer) :=
  match fuel with
  | O => OutOfFuel
  | S fuel =>
      let lookahead := peek lexer in
      match type lookahead with
      | Eof => Returns (lhs, lexer)
      | Op =>
          if postfix_binding_power (char0 (value lookahead)) >=? min_bp then
            let lexer := snd (next lexer) in
            expr_loop fuel (mkS (value lookahead) [lhs]) lexer min_bp
          else
            let (l_bp, r_bp) :=
              infix_binding_power (char0 (value lookahead)) in
            if l_bp <? min_bp then Returns (lhs, lexer)
            else
              let lexer := snd (next lexer) in
              if Ascii.eqb (char0 (value lookahead)) "?" then
                do (mhs, lexer) <- expr_bp fuel lexer 0;
                do (rhs, lexer) <- expr_bp fuel lexer r_bp;
                expr_loop fuel (mkS (value lookahead) [lhs; mhs; rhs])
                          lexer min_bp
              else
                do (rhs, lexer) <- expr_bp fuel lexer r_bp;
                expr_loop fuel (mkS (value lookahead) [lhs; rhs])
                          lexer min_bp
      | Atom => expr_loop fuel lhs lexer min_bp
      end
  end.

(** [expr]: tokenize, then parse at binding power 0. *)
Definition expr (fuel : nat) (input : string) : outcome Sexp :=
  do (s, _) <- expr_bp fuel (Lexer_new input) 0; Returns s.

(** What [main] prints for a line: [expr(line)->to_string()]. *)
Definition rpn (fuel : nat) (input : string) : outcome string :=
  do s <- expr fuel input; Returns (to_string s).

(** ** Runs of the parser

    More fuel never changes a result that less fuel already produced:
    [settles r r'] relates the result [r] of a shorter run with the
    result [r'] of a longer one. *)

Definition settles {A} (r r' : outcome A) : Prop := r = OutOfFuel \/ r = r'.

(** The runs of [expr] and of [main]'s [expr(line)->to_string()]. *)
Definition expr_returns (input : string) (s : Sexp) : Prop :=
  exists fuel, expr fuel input = Returns s.

Definition expr_throws (input : string) : Prop :=
  exists fuel what, expr fuel input = Throws what.

Definition expr_diverges (input : string) : Prop :=
  forall fuel, expr fuel input = OutOfFuel.

Definition rpn_returns (input output : string) : Prop :=
  exists fuel, rpn fuel input = Returns output.

Definition rpn_diverges (input : string) : Prop :=
  forall fuel, rpn fuel input = OutOfFuel.

(** ** The tokenizer's contract *)

Fixpoint all_digits (s : string) : bool :=
  match s with
  | EmptyString => true
  | String c r => isdigit c && all_digits r
  end.

Fixpoint all_spaces (s : string) : bool :=
  match s with
  | EmptyString => true
  | String c r => isspace c && all_spaces r
  end.

(** The tokenizer's contract, as the specification words it: whitespace
    is skipped, a maximal run of digits is one numeric leaf, any other
    alphanumeric character is a one-character leaf, every remaining
    character is a one-character operator. *)
Inductive tokenizes : string -> list Token -> Prop :=
| tokenizes_end : tokenizes "" []
| tokenizes_space c s ts :
    isspace c = true -> tokenizes s ts -> tokenizes (String c s) ts
| tokenizes_number run s ts :
    run <> "" -> all_digits run = true -> isdigit (char0 s) = false ->
    tokenizes s ts -> tokenizes (run ++ s)%string (mkToken Atom run :: ts)
| tokenizes_alnum c s ts :
    isspace c = false -> isdigit c = false -> isalnum c = true ->
    tokenizes s ts -> tokenizes (String c s) (mkToken Atom (string1 c) :: ts)
| tokenizes_op c s ts :
    isspace c = false -> isalnum c = false ->
    tokenizes s ts -> tokenizes (String c s) (mkToken Op (string1 c) :: ts).

(** [n] calls of [Lexer::next]: what they hand out, and the cursor left. *)
Fixpoint drain (n : nat) (lexer : Lexer) : list Token * Lexer :=
  match n with
  | O => ([], lexer)
  | S n =>
      let (t, lexer) := next lexer in
      let (ts, lexer) := drain n lexer in
      (t :: ts, lexer)
  end.

Definition is_end (t : Token) : bool :=
  match type t with
  | Eof => true
  | _ => false
  end.

(** ** Trees: induction and the postfix sequence *)

Section SexpInduction.
Variable P : Sexp -> Prop.
Hypothesis node : forall head rest, Forall P rest -> P (mkS head rest).

Fixpoint Sexp_rect' (s : Sexp) : P s :=
  match s with
  | mkS head rest =>
      node head rest
        ((fix children (l : list Sexp) : Forall P l :=
            match l with
            | [] => List.Forall_nil P
            | s' :: l' =>
                List.Forall_cons P s' l' (Sexp_rect' s') (children l')
            end) rest)
  end.
End SexpInduction.

(** The specification's reading of the rendering: every child's
    rendering, left to right, each followed by the separator. *)
Fixpoint children_then (renderings : list string) (own : string) : string :=
  match renderings with
  | [] => own
  | r :: rs => (r ++ " " ++ children_then rs own)%string
  end.

(** The postfix sequence of symbols: children first, then the node. *)
Fixpoint postfix (s : Sexp) : list string :=
  match s with
  | mkS head rest => flat_map postfix rest ++ [head]
  end.

(** Trees all of whose heads pass the test [q]. *)
Fixpoint all_heads (q : string -> bool) (s : Sexp) : bool :=
  match s with
  | mkS head rest => q head && forallb (all_heads q) rest
  end.

(** The trees of the fragment "infix [+ - * /] over numeric literals":
    a literal leaf, or one of the four operators over two such trees. *)
Definition is_arith_op (c : ascii) : bool :=
  Ascii.eqb c "+" || Ascii.eqb c "-" || Ascii.eqb c "*" || Ascii.eqb c "/".

Inductive arith_tree : Sexp -> Prop :=
| arith_literal n :
    n <> "" -> all_digits n = true -> arith_tree (mkS n [])
| arith_infix c l r :
    is_arith_op c = true -> arith_tree l -> arith_tree r ->
    arith_tree (mkS (string1 c) [l; r]).

(** ** The lightning back end

    [compile_rpn] emits GNU lightning instructions while it reads the
    postfix string.  The embedding keeps the instructions it emits, in
    order, and gives them lightning's meaning on a machine with three
    registers and the 32 [int] slots reserved by [jit_allocai]. *)

Inductive jit_reg := JIT_R0 | JIT_R1 | JIT_R2.

Inductive jit_insn :=
| jit_getarg (r : jit_reg)
| jit_stxi_i (off : Z) (r : jit_reg)
| jit_ldxi_i (r : jit_reg) (off : Z)
| jit_movi (r : jit_reg) (i : Z)
| jit_addr (d a b : jit_reg)
| jit_subr (d a b : jit_reg)
| jit_mulr (d a b : jit_reg)
| jit_divr (d a b : jit_reg)
| jit_retr (r : jit_reg).

Definition sizeof_int : Z := 4.
Definition INT_MAX : Z := 2147483647.

(** [stack_push]: store [reg] at the current offset, then advance it. *)
Definition stack_push (reg : jit_reg) (sp : Z) (code : list jit_insn)
  : Z * list jit_insn :=
  (sp + sizeof_int, code ++ [jit_stxi_i sp reg]).

(** [stack_pop]: step the offset back, then load [reg] from it. *)
Definition stack_pop (reg : jit_reg) (sp : Z) (code : list jit_insn)
  : Z * list jit_insn :=
  (sp - sizeof_int, code ++ [jit_ldxi_i reg (sp - sizeof_int)]).

(** [atoi] on a string of digits. *)
Definition digit_value (c : ascii) : Z := Z.of_nat (nat_of_ascii c) - 48.

Fixpoint atoi_from (acc : Z) (s : string) : Z :=
  match s with
  | EmptyString => acc
  | String c r => atoi_from (10 * acc + digit_value c) r
  end.

Definition atoi (s : string) : Z := atoi_from 0 s.

(** What [compile_rpn] comes to: the emitted code, [abort()] after
    "cannot compile", or undefined behaviour of the C library calls
    ([sscanf] writing more than 31 digits and the NUL into [buf[32]],
    [atoi] of a value no [int] holds). *)
Inductive compiled :=
| Code (code : list jit_insn)
| Abort
| Undefined.

(** The body of [while ( *expr )], with [expr] the unread text,
    [stack_ptr] the frame offset and [code] what was emitted so far.
    [sscanf(expr, "%[0-9]%n", buf, &n)] answers 1 exactly when the text
    starts with a digit; [buf] is then the whole run of digits and
    [expr += n - 1; ++expr] passes over it. *)
Equations? compile_loop (expr : string) (stack_ptr : Z) (code : list jit_insn)
  : compiled by wf (String.length expr) lt :=
  compile_loop EmptyString stack_ptr code := Code code;
  compile_loop (String c rest) stack_ptr code with isdigit c := {
    | true :=
        let buf := String c (take_digits rest) in
        if (32 <=? String.length buf)%nat then Undefined
        else if INT_MAX <? atoi buf then Undefined
        else
          let (stack_ptr, code) := stack_push JIT_R0 stack_ptr code in
          compile_loop (skip_digits rest) stack_ptr
                       (code ++ [jit_movi JIT_R0 (atoi buf)]);
    | false :=
        if Ascii.eqb c "+" then
          let (stack_ptr, code) := stack_pop JIT_R1 stack_ptr code in
          compile_loop rest stack_ptr (code ++ [jit_addr JIT_R0 JIT_R1 JIT_R0])
        else if Ascii.eqb c "-" then
          let (stack_ptr, code) := stack_pop JIT_R1 stack_ptr code in
          compile_loop rest stack_ptr (code ++ [jit_subr JIT_R0 JIT_R1 JIT_R0])
        else if Ascii.eqb c "*" then
          let (stack_ptr, code) := stack_pop JIT_R1 stack_ptr code in
          compile_loop rest stack_ptr (code ++ [jit_mulr JIT_R0 JIT_R1 JIT_R0])
        else if Ascii.eqb c "/" then
          let (stack_ptr, code) := stack_pop JIT_R1 stack_ptr code in
          compile_loop rest stack_ptr (code ++ [jit_divr JIT_R0 JIT_R1 JIT_R0])
        else if Ascii.eqb c "(" || Ascii.eqb c ")" || Ascii.eqb c " " then
          compile_loop rest stack_ptr code
        else Abort }.
Proof.
  all: simpl; try lia.
  assert (H : forall s, (String.length (skip_digits s) <= String.length s)%nat).
  { induction s as [|d s IH]; simpl; [lia|].
    destruct (isdigit d); simpl; lia. }
  match goal with |- context [skip_digits ?r] => specialize (H r) end. lia.
Qed.

(** [compile_rpn]: the prologue reads the argument into [JIT_R2] and
    reserves the frame at offset [stack_base] (the value of
    [jit_allocai]); the loop follows, then [jit_retr(JIT_R0)]. *)
Definition compile_rpn (stack_base : Z) (expr : string) : compiled :=
  match compile_loop expr stack_base [jit_getarg JIT_R2] with
  | Code code => Code (code ++ [jit_retr JIT_R0])
  | Abort => Abort
  | Undefined => Undefined
  end.

(** *** Running the emitted code

    Registers are machine words, 32 or 64 bits wide depending on the
    target; [jit_stxi_i] stores the low 32 bits of a register as an
    [int], [jit_ldxi_i] loads an [int] sign-extended, and the compiled
    function returns [int]. *)

Inductive jit_word := Word32 | Word64.

Definition word_bits (w : jit_word) : Z :=
  match w with
  | Word32 => 32
  | Word64 => 64
  end.

(** Two's complement wrap-around to [bits] bits. *)
Definition wrap (bits z : Z) : Z :=
  (z + 2 ^ (bits - 1)) mod 2 ^ bits - 2 ^ (bits - 1).

Record machine := mkMachine {
  R0 : Z; R1 : Z; R2 : Z;
  arg : Z;
  frame : list Z
}.

Definition get_reg (m : machine) (r : jit_reg) : Z :=
  match r with
  | JIT_R0 => R0 m
  | JIT_R1 => R1 m
  | JIT_R2 => R2 m
  end.

Definition set_reg (m : machine) (r : jit_reg) (v : Z) : machine :=
  match r with
  | JIT_R0 => mkMachine v (R1 m) (R2 m) (arg m) (frame m)
  | JIT_R1 => mkMachine (R0 m) v (R2 m) (arg m) (frame m)
  | JIT_R2 => mkMachine (R0 m) (R1 m) v (arg m) (frame m)
  end.

Definition set_frame (m : machine) (frame : list Z) : machine :=
  mkMachine (R0 m) (R1 m) (R2 m) (arg m) frame.

(** The slot of the reserved [32 * sizeof(int)] bytes that the frame
    offset [off] names, if it names one. *)
Definition frame_slot (stack_base off : Z) : option nat :=
  let d := off - stack_base in
  if (0 <=? d) && (d <? 32 * sizeof_int) && (d mod sizeof_int =? 0)
  then Some (Z.to_nat (d / sizeof_int))
  else None.

Inductive finished :=
| Value (v : Z)
| Fault
| NoReturn.

(** Stores and loads outside the reserved bytes, division by zero and
    the overflowing quotient are faults; the code is straight-line. *)
Fixpoint jit_run (w : jit_word) (stack_base : Z) (code : list jit_insn)
  (m : machine) : finished :=
  match code with
  | [] => NoReturn
  | insn :: code =>
      let bits := word_bits w in
      match insn with
      | jit_getarg r => jit_run w stack_base code (set_reg m r (arg m))
      | jit_stxi_i off r =>
          match frame_slot stack_base off with
          | Some k =>
              if (k <? length (frame m))%nat then
                jit_run w stack_base code
                  (set_frame m (<[k := wrap 32 (get_reg m r)]> (frame m)))
              else Fault
          | None => Fault
          end
      | jit_ldxi_i r off =>
          match frame_slot stack_base off with
          | Some k =>
              match frame m !! k with
              | Some v => jit_run w stack_base code (set_reg m r v)
              | None => Fault
              end
          | None => Fault
          end
      | jit_movi r i => jit_run w stack_base code (set_reg m r (wrap bits i))
      | jit_addr d a b =>
          jit_run w stack_base code
            (set_reg m d (wrap bits (get_reg m a + get_reg m b)))
      | jit_subr d a b =>
          jit_run w stack_base code
            (set_reg m d (wrap bits (get_reg m a - get_reg m b)))
      | jit_mulr d a b =>
          jit_run w stack_base code
            (set_reg m d (wrap bits (get_reg m a * get_reg m b)))
      | jit_divr d a b =>
          if get_reg m b =? 0 then Fault
          else if (get_reg m a =? - 2 ^ (bits - 1)) && (get_reg m b =? -1)
          then Fault
          else
            jit_run w stack_base code
              (set_reg m d (wrap bits (Z.quot (get_reg m a) (get_reg m b))))
      | jit_retr r => Value (wrap 32 (get_reg m r))
      end
  end.

(** The machine on entry to the compiled function: whatever the caller
    left in the registers, in the argument and in the fresh frame. *)
Definition entry (r0 r1 r2 a : Z) (junk : nat -> Z) : machine :=
  mkMachine r0 r1 r2 a (map junk (seq 0 32)).

(** [line.c_str()]: what a reader of the [const char *] sees of a
    [std::string], the text up to its first NUL byte. *)
Definition NUL : ascii := "000"%char.

Fixpoint c_str (s : string) : string :=
  match s with
  | EmptyString => EmptyString
  | String c r => if Ascii.eqb c NUL then EmptyString else String c (c_str r)
  end.

(** [eval(line)]: [compile_rpn(line.c_str())]; [jit_emit] and
    [jit_address] then hand out the code as a function. *)
Definition eval (stack_base : Z) (line : string) : compiled :=
  compile_rpn stack_base (c_str line).

(** [eval(line)] followed by the call of the function it returns. *)
Definition eval_call (w : jit_word) (stack_base : Z) (line : string)
  (m : machine) : option finished :=
  match eval stack_base line with
  | Code code => Some (jit_run w stack_base code m)
  | Abort | Undefined => None
  end.

(** *** Operands and operators of the postfix text *)

(** A numeric literal [compile_rpn] reads without undefined behaviour. *)
Definition numeral (s : string) : bool :=
  negb (String.eqb s "") && all_digits s
  && (String.length s <? 32)%nat && (atoi s <=? INT_MAX).

(** The arithmetic of the four operators on a left and a right operand. *)
Definition binop (c : ascii) (l r : Z) : option Z :=
  if Ascii.eqb c "+" then Some (l + r)
  else if Ascii.eqb c "-" then Some (l - r)
  else if Ascii.eqb c "*" then Some (l * r)
  else if Ascii.eqb c "/" then (if r =? 0 then None else Some (Z.quot l r))
  else None.

(** *** The stack machine of the specification

    A postfix sequence is a sequence of instructions: push a constant,
    or apply a binary operator to the two values on top, the one popped
    first being the right operand and the one popped second the left.
    The machine works on [int] values and holds at most the 32 values
    the frame has room for; a constant or result no [int] holds, a
    division by zero and a missing operand are outside its contract. *)

Inductive instruction :=
| Push (value : Z)
| Apply (symbol : ascii).

Definition fits_int (v : Z) : bool := (- 2 ^ 31 <=? v) && (v <=? INT_MAX).

Fixpoint stack_machine (prog : list instruction) (stack : list Z)
  : option (list Z) :=
  match prog with
  | [] => Some stack
  | Push v :: prog =>
      if fits_int v && (length stack <? 32)%nat
      then stack_machine prog (v :: stack)
      else None
  | Apply c :: prog =>
      match stack with
      | r :: l :: stack =>
          match binop c l r with
          | Some v =>
              if fits_int v then stack_machine prog (v :: stack) else None
          | None => None
          end
      | _ => None
      end
  end.

(** The postfix text of a sequence of symbols, as [S::to_string] writes
    it: numerals and operator characters, one blank between two. *)
Inductive word :=
| Num (digits : string)
| Sym (symbol : ascii).

Definition word_text (x : word) : string :=
  match x with
  | Num digits => digits
  | Sym c => string1 c
  end.

Definition text (ws : list word) : string :=
  String.concat " " (map word_text ws).

Definition word_ok (x : word) : bool :=
  match x with
  | Num digits => numeral digits
  | Sym c => is_arith_op c
  end.

Definition instruction_of (x : word) : instruction :=
  match x with
  | Num digits => Push (atoi digits)
  | Sym c => Apply c
  end.

(** What [compile_rpn] emits for a word when the frame offset is [sp]. *)
Definition op_insn (c : ascii) : jit_insn :=
  if Ascii.eqb c "+" then jit_addr JIT_R0 JIT_R1 JIT_R0
  else if Ascii.eqb c "-" then jit_subr JIT_R0 JIT_R1 JIT_R0
  else if Ascii.eqb c "*" then jit_mulr JIT_R0 JIT_R1 JIT_R0
  else jit_divr JIT_R0 JIT_R1 JIT_R0.

Fixpoint emitted (sp : Z) (ws : list word) : list jit_insn :=
  match ws with
  | [] => []
  | Num digits :: ws =>
      jit_stxi_i sp JIT_R0 :: jit_movi JIT_R0 (atoi digits)
        :: emitted (sp + sizeof_int) ws
  | Sym c :: ws =>
      jit_ldxi_i JIT_R1 (sp - sizeof_int) :: op_insn c
        :: emitted (sp - sizeof_int) ws
  end.

(** How the running code holds the machine's stack: the top value in
    [JIT_R0], the values below it in the frame, the oldest in slot 1
    (slot 0 receives whatever [JIT_R0] held on entry). *)
Definition holds (m : machine) (stack : list Z) : Prop :=
  length (frame m) = 32%nat /\
  forallb fits_int stack = true /\
  match stack with
  | [] => True
  | top :: below =>
      R0 m = top /\
      forall j v, below !! j = Some v ->
                  frame m !! (length below - j)%nat = Some v
  end.

(** *** Parentheses in the postfix text *)

Definition is_paren (c : ascii) : bool := Ascii.eqb c "(" || Ascii.eqb c ")".

(** The text with every ['('] and [')'] deleted. *)
Fixpoint strip_parens (s : string) : string :=
  match s with
  | EmptyString => EmptyString
  | String c r =>
      if is_paren c then strip_parens r else String c (strip_parens r)
  end.

(** Where a scan of the text stands with respect to the last digit. *)
Inductive paren_scan := Elsewhere | AfterDigit | AfterDigitParens.

(** Does the text hold a digit, then parentheses only, then a digit? *)
Fixpoint parens_join_digits_from (st : paren_scan) (s : string) : bool :=
  match s with
  | EmptyString => false
  | String c r =>
      if isdigit c then
        match st with
        | AfterDigitParens => true
        | _ => parens_join_digits_from AfterDigit r
        end
      else if is_paren c then
        match st with
        | Elsewhere => parens_join_digits_from Elsewhere r
        | _ => parens_join_digits_from AfterDigitParens r
        end
      else parens_join_digits_from Elsewhere r
  end.

Definition parens_join_digits (s : string) : bool :=
  parens_join_digits_from Elsewhere s.

(** The test on heads: a head alone has no parenthesis between digits. *)
Definition head_is_safe (head : string) : bool :=
  negb (parens_join_digits head).

(** A cursor all of whose tokens have a text that passes [q]. *)
Definition tokens_pass (q : string -> bool) (lexer : Lexer) : Prop :=
  forallb (fun t => q (value t)) (tokens lexer) = true.

(** ** Token texts *)

(** The input with its whitespace deleted. *)
Fixpoint remove_spaces (s : string) : string :=
  match s with
  | EmptyString => EmptyString
  | String c r =>
      if isspace c then remove_spaces r else String c (remove_spaces r)
  end.

(** The texts of a token sequence, one after the other. *)
Fixpoint concat_values (ts : list Token) : string :=
  match ts with
  | [] => EmptyString
  | t :: ts => (value t ++ concat_values ts)%string
  end.

(** The text of a leaf: a run of digits, or one other alphanumeric. *)
Definition atom_text (v : string) : bool :=
  match v with
  | EmptyString => false
  | String c EmptyString => isalnum c
  | _ => all_digits v
  end.

(** The text of an operator: one character, no blank, no alphanumeric. *)
Definition op_text (v : string) : bool :=
  match v with
  | String c EmptyString => negb (isspace c) && negb (isalnum c)
  | _ => false
  end.

Definition token_wf (t : Token) : bool :=
  match type t with
  | Atom => atom_text (value t)
  | Op => op_text (value t)
  | Eof => String.eqb (value t) ""
  end.

(** ** Shapes of parsed trees *)

(** How often the text [v] occurs in a list of texts. *)
Definition occurrences (v : string) (l : list string) : nat :=
  count_occ string_dec l v.
Arguments occurrences : simpl never.

(** A leaf carries the text of a leaf token; a node with children
    carries the text of an operator token and has one, two or three
    children, three only under a head that starts with ['?']. *)
Fixpoint parsed_shape (s : Sexp) : bool :=
  match s with
  | mkS head rest =>
      match rest with
      | [] => atom_text head
      | _ =>
          op_text head && (length rest <=? 3)%nat
          && implb (length rest =? 3)%nat (Ascii.eqb (char0 head) "?")
      end
      && forallb parsed_shape rest
  end.

(** ** Sums of products

    Infix text without parentheses over the four arithmetic operators: a
    sum is a first term followed by [+] or [-] and further terms, a term
    a first operand followed by [*] or [/] and further operands. *)

Definition term : Type := string * list (ascii * string).
Definition sum : Type := term * list (ascii * term).

Definition is_mul_op (c : ascii) : bool := Ascii.eqb c "*" || Ascii.eqb c "/".
Definition is_add_op (c : ascii) : bool := Ascii.eqb c "+" || Ascii.eqb c "-".

(** A non-empty run of digits. *)
Definition literal (n : string) : bool :=
  negb (String.eqb n "") && all_digits n.

Definition term_ok (lit : string -> bool) (t : term) : bool :=
  lit (fst t) && forallb (fun f => is_mul_op (fst f) && lit (snd f)) (snd t).

Definition sum_ok (lit : string -> bool) (e : sum) : bool :=
  term_ok lit (fst e)
  && forallb (fun s => is_add_op (fst s) && term_ok lit (snd s)) (snd e).

(** The tokens of a sum, in reading order. *)
Definition factor_tokens (fs : list (ascii * string)) : list Token :=
  flat_map (fun f => [mkToken Op (string1 (fst f)); mkToken Atom (snd f)]) fs.

Definition term_tokens (t : term) : list Token :=
  mkToken Atom (fst t) :: factor_tokens (snd t).

Definition summand_tokens (ss : list (ascii * term)) : list Token :=
  flat_map (fun s => mkToken Op (string1 (fst s)) :: term_tokens (snd s)) ss.

Definition sum_tokens (e : sum) : list Token :=
  term_tokens (fst e) ++ summand_tokens (snd e).

(** The sum written with one blank between two tokens. *)
Definition infix_text (e : sum) : string :=
  String.concat " " (map value (sum_tokens e)).

(** The tree of the usual reading: [*] and [/] bind tighter than [+] and
    [-], and operators of one level group to the left. *)
Definition with_factors (lhs : Sexp) (fs : list (ascii * string)) : Sexp :=
  fold_left (fun lhs f => mkS (string1 (fst f)) [lhs; mkS (snd f) []]) fs lhs.

Definition term_tree (t : term) : Sexp :=
  with_factors (mkS (fst t) []) (snd t).

Definition with_summands (lhs : Sexp) (ss : list (ascii * term)) : Sexp :=
  fold_left (fun lhs s => mkS (string1 (fst s)) [lhs; term_tree (snd s)])
            ss lhs.

Definition sum_tree (e : sum) : Sexp :=
  with_summands (term_tree (fst e)) (snd e).

(** A cursor that hands out [ts] from left to right. *)
Definition cursor_on (ts : list Token) : Lexer := mkLexer (rev ts).

(** Does the loop of [expr_bp] stop in front of [ts] at minimum power
    [bp]?  It does at the end marker, and at an operator whose postfix
    and left infix powers are below [bp]. *)
Definition stops_loop (bp : Z) (ts : list Token) : bool :=
  match ts with
  | [] => true
  | t :: _ =>
      match type t with
      | Eof => true
      | Op =>
          (postfix_binding_power (char0 (value t)) <? bp)
          && (fst (infix_binding_power (char0 (value t))) <? bp)
      | Atom => false
      end
  end.

(** A token as [infix_text] spells it: a numeric leaf or an operator. *)
Definition plain_token (t : Token) : bool :=
  match type t with
  | Atom => literal (value t)
  | Op => op_text (value t)
  | Eof => false
  end.

(** The postfix words of a sum, and its value in [int] arithmetic:
    operators of one level from left to right, division truncating; no
    value when a result does not fit an [int] or a divisor is zero. *)
Definition term_words (t : term) : list word :=
  Num (fst t) :: flat_map (fun f => [Num (snd f); Sym (fst f)]) (snd t).

Definition sum_words (e : sum) : list word :=
  term_words (fst e)
  ++ flat_map (fun s => term_words (snd s) ++ [Sym (fst s)]) (snd e).

Definition apply_checked (c : ascii) (l r : Z) : option Z :=
  match binop c l r with
  | Some v => if fits_int v then Some v else None
  | None => None
  end.

Definition times_factors (acc : option Z) (fs : list (ascii * string))
  : option Z :=
  fold_left (fun acc f =>
               match acc with
               | Some a => apply_checked (fst f) a (atoi (snd f))
               | None => None
               end) fs acc.

Definition term_value (t : term) : option Z :=
  times_factors (Some (atoi (fst t))) (snd t).

Definition plus_summands (acc : option Z) (ss : list (ascii * term))
  : option Z :=
  fold_left (fun acc s =>
               match acc, term_value (snd s) with
               | Some a, Some b => apply_checked (fst s) a b
               | _, _ => None
               end) ss acc.

Definition sum_value (e : sum) : option Z :=
  plus_summands (term_value (fst e)) (snd e).

(** ** [main]: the read-eval-print loop

    Standard input is the text still unread together with the stream's
    state bits; standard output is the list of results printed, each the
    postfix rendering and the number after ["->"]. *)

Record istream := mkIstream {
  unread : string;
  eofbit : bool;
  failbit : bool
}.

Definition newline : ascii := "010"%char.

(** The characters up to the next newline, what follows it, and whether
    a newline was found before the end of the text. *)
Fixpoint read_line (s : string) : string * string * bool :=
  match s with
  | EmptyString => (EmptyString, EmptyString, false)
  | String c r =>
      if Ascii.eqb c newline then (EmptyString, r, true)
      else
        let '(l, rest, found) := read_line r in
        (String c l, rest, found)
  end.

(** [getline(cin, line)]: on a stream that is not good the sentry sets
    [failbit] and [line] stays as it is; otherwise [line] is erased and
    filled up to the newline, which is dropped; reaching the end of the
    input sets [eofbit], and [failbit] too when nothing was extracted. *)
Definition getline (cin : istream) (line : string) : istream * string :=
  if eofbit cin || failbit cin then
    (mkIstream (unread cin) (eofbit cin) true, line)
  else
    let '(l, rest, found) := read_line (unread cin) in
    if found then (mkIstream rest false false, l)
    else (mkIstream rest true (String.eqb l ""), l).

(** How the process ends. *)
Inductive process_end :=
| Exits (status : Z) (printed : list (string * Z))
| Terminates (what : string) (printed : list (string * Z))
| Aborts (printed : list (string * Z))
| BehavesUndefined (printed : list (string * Z))
| Crashes (printed : list (string * Z))
| StillRunning (printed : list (string * Z)).

(** The registers, argument and frame a call finds, drawn from [g]. *)
Definition entry_from (g : nat -> Z) : machine :=
  entry (g 0%nat) (g 1%nat) (g 2%nat) (g 3%nat) (fun i => g (4 + i)%nat).

(** The [do ... while (line != "quit")] loop of [main].  [fuel] bounds
    the iterations and the work of the parser in each, and a run that
    uses it up is still running, with what it has printed so far;
    [garbage k] is what the [k]-th compiled function finds on entry. *)
Fixpoint main_loop (fuel : nat) (w : jit_word) (stack_base : Z)
  (garbage : nat -> nat -> Z) (k : nat)
  (cin : istream) (line : string) (printed : list (string * Z))
  : process_end :=
  match fuel with
  | O => StillRunning printed
  | S fuel =>
      let (cin, line) := getline cin line in
      match expr fuel line with
      | OutOfFuel => StillRunning printed
      | Throws what => Terminates what printed
      | Returns result =>
          match eval stack_base (to_string result) with
          | Abort => Aborts printed
          | Undefined => BehavesUndefined printed
          | Code code =>
              match jit_run w stack_base code (entry_from (garbage k)) with
              | Value v =>
                  let printed := printed ++ [(to_string result, v)] in
                  if negb (String.eqb line "quit")
                  then main_loop fuel w stack_base garbage (S k)
                                 cin line printed
                  else Exits 0 printed
              | Fault | NoReturn => Crashes printed
              end
          end
      end
  end.

(** [main]: the loop starts with an empty [line] on a good stream. *)
Definition main (fuel : nat) (w : jit_word) (stack_base : Z)
  (garbage : nat -> nat -> Z) (stdin : string) : process_end :=
  main_loop fuel w stack_base garbage 0 (mkIstream stdin false false) "" [].

(** Standard input with one sum per line, every line ended by a newline,
    and the fuel that lets [main] read it to the end. *)
Definition lines_of (es : list sum) : string :=
  fold_right (fun e rest => infix_text e ++ String newline rest)%string
             EmptyString es.

Fixpoint session_fuel (es : list sum) : nat :=
  match es with
  | [] => 2
  | e :: es => length (sum_tokens e) + 4 + session_fuel es
  end.

Fixpoint no_newline (s : string) : bool :=
  match s with
  | EmptyString => true
  | String c r => negb (Ascii.eqb c newline) && no_newline r
  end.

(** The characters [compile_rpn] has a branch for: digits, the four
    operators, the two parentheses and the blank. *)
Definition compilable_char (c : ascii) : bool :=
  isdigit c || is_arith_op c || is_paren c || Ascii.eqb c " ".

Fixpoint all_compilable (s : string) : bool :=
  match s with
  | EmptyString => true
  | String c r => compilable_char c && all_compilable r
  end.

(** A sign in front of an operand, and what the back end makes of the
    rendering [n c] when [JIT_R0] holds [r0] on entry. *)
Definition is_sign (c : ascii) : bool := Ascii.eqb c "+" || Ascii.eqb c "-".

Definition signed_value (c : ascii) (r0 n : Z) : Z :=
  if Ascii.eqb c "+" then wrap 32 (wrap 32 r0 + n)
  else wrap 32 (wrap 32 r0 - n).

(** A chain [n c n1 c n2 ...] of operands joined by one operator whose
    right power is below its left one, and the tree that groups the
    chain from the right. *)
Definition is_right_op (c : ascii) : bool :=
  Ascii.eqb c "=" || Ascii.eqb c ".".

Fixpoint chain_tokens (c : ascii) (n : string) (ns : list string)
  : list Token :=
  mkToken Atom n ::
  match ns with
  | [] => []
  | n' :: ns' => mkToken Op (string1 c) :: chain_tokens c n' ns'
  end.

Definition chain_text (c : ascii) (n : string) (ns : list string) : string :=
  String.concat " " (map value (chain_tokens c n ns)).

Fixpoint right_tree (c : ascii) (n : string) (ns : list string) : Sexp :=
  match ns with
  | [] => mkS n []
  | n' :: ns' => mkS (string1 c) [mkS n []; right_tree c n' ns']
  end.

(** * Properties *)

(** ** [std::string] *)

Lemma append_length (s1 s2 : string) :
  String.length (s1 ++ s2) = (String.length s1 + String.length s2)%nat.
Proof. induction s1 as [|c s1 IH]; simpl; [|rewrite IH]; reflexivity. Qed.

Lemma append_assoc (s1 s2 s3 : string) :
  ((s1 ++ s2) ++ s3 = s1 ++ (s2 ++ s3))%string.
Proof. induction s1 as [|c s1 IH]; simpl; [|rewrite IH]; reflexivity. Qed.

Lemma append_nil_r (s : string) : (s ++ "")%string = s.
Proof. induction s as [|c s IH]; simpl; [|rewrite IH]; reflexivity. Qed.

(** ** The cursor *)

Lemma next_snoc ts t : next (mkLexer (ts ++ [t])) = (t, mkLexer ts).
Proof.
  unfold next, back, pop_back; simpl.
  rewrite List.last_last, removelast_last.
  destruct (ts ++ [t]) eqn:E; [|reflexivity].
  destruct ts; discriminate.
Qed.

Lemma peek_snoc ts t : peek (mkLexer (ts ++ [t])) = t.
Proof.
  unfold peek, back; simpl.
  rewrite List.last_last.
  destruct (ts ++ [t]) eqn:E; [|reflexivity].
  destruct ts; discriminate.
Qed.

Lemma peek_next lexer : peek lexer = fst (next lexer).
Proof. unfold peek, next. destruct (tokens lexer); reflexivity. Qed.

(** ** Fuel *)

Lemma settles_refl {A} (r : outcome A) : settles r r.
Proof. right; reflexivity. Qed.

Lemma settles_bind {A B} (m m' : outcome A) (k k' : A -> outcome B) :
  settles m m' -> (forall a, settles (k a) (k' a)) ->
  settles (bind m k) (bind m' k').
Proof.
  intros [-> | <-] Hk; [left; reflexivity|].
  destruct m; simpl; auto using settles_refl.
Qed.

#[local] Hint Resolve settles_refl : core.

Lemma fuel_settles fuel : forall fuel', (fuel <= fuel')%nat ->
  (forall lexer bp, settles (expr_bp fuel lexer bp) (expr_bp fuel' lexer bp))
  /\ (forall lhs lexer bp,
        settles (expr_loop fuel lhs lexer bp) (expr_loop fuel' lhs lexer bp)).
Proof.
  induction fuel as [|fuel IH]; intros fuel' Hle.
  { split; intros; left; reflexivity. }
  destruct fuel' as [|fuel']; [lia|].
  destruct (IH fuel' ltac:(lia)) as [IHb IHl].
  split; intros; simpl.
  - destruct (next lexer) as [token lexer'].
    destruct (type token); auto.
    destruct (String.eqb _ _);
      apply settles_bind; auto; intros [? ?]; auto.
  - destruct (type (peek lexer)); auto.
    destruct (_ >=? _); auto.
    destruct (infix_binding_power _) as [l_bp r_bp].
    destruct (l_bp <? bp); auto.
    destruct (Ascii.eqb _ _);
      repeat (apply settles_bind; auto; intros [? ?]); auto.
Qed.

Lemma expr_bp_more_fuel fuel fuel' lexer bp r :
  expr_bp fuel lexer bp = r -> r <> OutOfFuel -> (fuel <= fuel')%nat ->
  expr_bp fuel' lexer bp = r.
Proof.
  intros E Hr Hle.
  destruct (proj1 (fuel_settles fuel fuel' Hle) lexer bp) as [H | H];
    congruence.
Qed.

Lemma expr_more_fuel fuel fuel' input r :
  expr fuel input = r -> r <> OutOfFuel -> (fuel <= fuel')%nat ->
  expr fuel' input = r.
Proof.
  unfold expr; intros E Hr Hle.
  destruct (expr_bp fuel (Lexer_new input) 0) eqn:Eb;
    try (subst r; simpl in Hr; congruence);
    erewrite expr_bp_more_fuel by (try exact Eb; try discriminate; exact Hle);
    exact E.
Qed.

Lemma rpn_more_fuel fuel fuel' input r :
  rpn fuel input = r -> r <> OutOfFuel -> (fuel <= fuel')%nat ->
  rpn fuel' input = r.
Proof.
  unfold rpn; intros E Hr Hle.
  destruct (expr fuel input) eqn:Eb;
    try (subst r; simpl in Hr; congruence);
    erewrite expr_more_fuel by (try exact Eb; try discriminate; exact Hle);
    exact E.
Qed.

Lemma expr_run_unique fuel1 fuel2 input r1 r2 :
  expr fuel1 input = r1 -> r1 <> OutOfFuel ->
  expr fuel2 input = r2 -> r2 <> OutOfFuel -> r1 = r2.
Proof.
  intros E1 H1 E2 H2.
  pose proof (expr_more_fuel _ (Nat.max fuel1 fuel2) _ _ E1 H1 ltac:(lia)).
  pose proof (expr_more_fuel _ (Nat.max fuel1 fuel2) _ _ E2 H2 ltac:(lia)).
  congruence.
Qed.

Lemma rpn_run_unique fuel1 fuel2 input r1 r2 :
  rpn fuel1 input = r1 -> r1 <> OutOfFuel ->
  rpn fuel2 input = r2 -> r2 <> OutOfFuel -> r1 = r2.
Proof.
  intros E1 H1 E2 H2.
  pose proof (rpn_more_fuel _ (Nat.max fuel1 fuel2) _ _ E1 H1 ltac:(lia)).
  pose proof (rpn_more_fuel _ (Nat.max fuel1 fuel2) _ _ E2 H2 ltac:(lia)).
  congruence.
Qed.

Lemma rpn_returns_unique input out out' :
  rpn_returns input out -> rpn_returns input out' -> out = out'.
Proof.
  intros [f1 E1] [f2 E2].
  assert (Returns out = Returns out') as H
    by (eapply rpn_run_unique; eauto; discriminate).
  congruence.
Qed.

Lemma expr_returns_unique input s s' :
  expr_returns input s -> expr_returns input s' -> s = s'.
Proof.
  intros [f1 E1] [f2 E2].
  assert (Returns s = Returns s') as H
    by (eapply expr_run_unique; eauto; discriminate).
  congruence.
Qed.

Lemma expr_returns_not_throws input s :
  expr_returns input s -> ~ expr_throws input.
Proof.
  intros [f1 E1] (f2 & what & E2).
  assert (Returns s = Throws what) as H
    by (eapply expr_run_unique; eauto; discriminate).
  discriminate.
Qed.

(** A lookahead that is a leaf keeps the loop where it is. *)
Lemma expr_loop_atom_lookahead fuel lhs lexer min_bp :
  type (peek lexer) = Atom ->
  expr_loop fuel lhs lexer min_bp = OutOfFuel.
Proof.
  intros H. induction fuel as [|fuel IH]; simpl; [reflexivity|].
  rewrite H. exact IH.
Qed.

(** Hence two leaves next to each other at the start of an expression
    are never parsed to the end. *)
Lemma expr_bp_adjacent_atoms fuel ts a b min_bp :
  type a = Atom -> type b = Atom ->
  expr_bp fuel (mkLexer (ts ++ [b; a])) min_bp = OutOfFuel.
Proof.
  intros Ha Hb. destruct fuel as [|fuel]; simpl; [reflexivity|].
  replace (ts ++ [b; a]) with ((ts ++ [b]) ++ [a])
    by (rewrite <- app_assoc; reflexivity).
  rewrite next_snoc, Ha.
  apply expr_loop_atom_lookahead. rewrite peek_snoc. exact Hb.
Qed.

(** ** The tokenizer *)

Lemma skip_digits_length s :
  (String.length (skip_digits s) <= String.length s)%nat.
Proof.
  induction s as [|c r IH]; simpl; [lia|].
  destruct (isdigit c); simpl; lia.
Qed.

Example lex_example :
  tokens (Lexer_new "12+ a") =
  [EofToken; mkToken Atom "a"; mkToken Op "+"; mkToken Atom "12"].
Proof. reflexivity. Qed.

(** One round of the outer [while] loop. *)
Lemma lex_loop_cons c rest tokens :
  lex_loop (String c rest) tokens =
  if isspace c then lex_loop rest tokens
  else if isdigit c then
    lex_loop (skip_digits rest)
             (tokens ++ [mkToken Atom (String c (take_digits rest))])
  else if isalnum c then lex_loop rest (tokens ++ [mkToken Atom (string1 c)])
  else lex_loop rest (tokens ++ [mkToken Op (string1 c)]).
Proof.
  simp lex_loop.
  destruct (isspace c); simpl; [reflexivity|].
  destruct (isdigit c); simpl; [reflexivity|].
  destruct (isalnum c); reflexivity.
Qed.

Lemma string_length_ind (P : string -> Prop) :
  (forall s, (forall s', (String.length s' < String.length s)%nat -> P s') ->
             P s) ->
  forall s, P s.
Proof.
  intros step s.
  remember (String.length s) as n eqn:En.
  revert s En. induction n as [n IH] using lt_wf_ind; intros s ->.
  apply step. intros s' Hlt. exact (IH _ Hlt s' eq_refl).
Qed.

(** The vector only grows at its end. *)
Lemma lex_loop_acc input : forall tokens,
  lex_loop input tokens = tokens ++ lex_loop input [].
Proof.
  induction input as [input IH] using string_length_ind. intros tokens.
  destruct input as [|c rest]; [simp lex_loop; rewrite app_nil_r; reflexivity|].
  pose proof (skip_digits_length rest) as Hskip.
  rewrite !lex_loop_cons.
  destruct (isspace c); [apply IH; simpl; lia|].
  destruct (isdigit c); [|destruct (isalnum c)].
  all: rewrite IH by (simpl; lia); symmetry; rewrite IH by (simpl; lia).
  all: rewrite app_nil_l, app_assoc; reflexivity.
Qed.

Lemma take_skip_digits s : (take_digits s ++ skip_digits s)%string = s.
Proof.
  induction s as [|c r IH]; simpl; [reflexivity|].
  destruct (isdigit c); simpl; [rewrite IH|]; reflexivity.
Qed.

Lemma take_digits_all s : all_digits (take_digits s) = true.
Proof.
  induction s as [|c r IH]; simpl; [reflexivity|].
  destruct (isdigit c) eqn:E; simpl; [rewrite E; exact IH | reflexivity].
Qed.

Lemma skip_digits_stops s : isdigit (char0 (skip_digits s)) = false.
Proof.
  induction s as [|c r IH]; simpl; [reflexivity|].
  destruct (isdigit c) eqn:E; simpl; assumption.
Qed.

(** A run of digits followed by something that is not a digit is taken
    whole and nothing more. *)
Lemma take_digits_run run s :
  all_digits run = true -> isdigit (char0 s) = false ->
  take_digits (run ++ s)%string = run.
Proof.
  intros Hrun Hs. induction run as [|c r IH]; simpl in *.
  - destruct s as [|c s]; simpl in *; [reflexivity|]. rewrite Hs; reflexivity.
  - apply andb_prop in Hrun as [-> Hr]. rewrite IH by exact Hr. reflexivity.
Qed.

Lemma skip_digits_run run s :
  all_digits run = true -> isdigit (char0 s) = false ->
  skip_digits (run ++ s)%string = s.
Proof.
  intros Hrun Hs. induction run as [|c r IH]; simpl in *.
  - destruct s as [|c s]; simpl in *; [reflexivity|]. rewrite Hs; reflexivity.
  - apply andb_prop in Hrun as [-> Hr]. exact (IH Hr).
Qed.

Lemma isdigit_not_space c : isdigit c = true -> isspace c = false.
Proof.
  unfold isdigit, isspace. generalize (nat_of_ascii c) as n; intros n H.
  apply andb_prop in H as [H1 H2].
  apply Nat.leb_le in H1. apply Nat.leb_le in H2.
  apply orb_false_intro; [apply andb_false_intro2 | ].
  - apply Nat.leb_gt. lia.
  - apply Nat.eqb_neq. lia.
Qed.

Lemma isdigit_alnum c : isdigit c = true -> isalnum c = true.
Proof. unfold isalnum. intros ->. reflexivity. Qed.

Lemma lex_loop_tokenizes input : tokenizes input (lex_loop input []).
Proof.
  induction input as [input IH] using string_length_ind.
  destruct input as [|c rest]; [simp lex_loop; constructor|].
  pose proof (skip_digits_length rest) as Hskip.
  rewrite lex_loop_cons.
  destruct (isspace c) eqn:Esp.
  { apply tokenizes_space; [exact Esp | apply IH; simpl; lia]. }
  destruct (isdigit c) eqn:Edig.
  { rewrite lex_loop_acc, app_nil_l. simpl.
    rewrite <- (take_skip_digits rest) at 1.
    apply (tokenizes_number (String c (take_digits rest))).
    - discriminate.
    - simpl. rewrite Edig. apply take_digits_all.
    - apply skip_digits_stops.
    - apply IH. simpl; lia. }
  destruct (isalnum c) eqn:Eal; rewrite lex_loop_acc, app_nil_l; simpl.
  - apply tokenizes_alnum; auto; apply IH; simpl; lia.
  - apply tokenizes_op; auto; apply IH; simpl; lia.
Qed.

(** The contract leaves no choice: it fixes the token sequence. *)
Lemma tokenizes_unique s : forall ts ts',
  tokenizes s ts -> tokenizes s ts' -> ts = ts'.
Proof.
  induction s as [s IH] using string_length_ind.
  assert (Hnum : forall run s0 ts ts',
             s = (run ++ s0)%string -> run <> "" -> all_digits run = true ->
             isdigit (char0 s0) = false -> tokenizes s0 ts ->
             tokenizes s ts' -> mkToken Atom run :: ts = ts').
  { intros run s0 ts ts' -> Hne Hrun Hstop Hts Hts'.
    destruct run as [|d run]; [congruence|]. simpl in Hrun.
    apply andb_prop in Hrun as [Hd Hrun].
    assert (Hlen : (String.length s0 < String.length (String d run ++ s0))%nat).
    { simpl. rewrite append_length. lia. }
    inversion Hts' as
      [ | c s1 ts1 Hsp | run' s1 ts1 Hne' Hrun' Hstop' Hts1 Heq
        | c s1 ts1 Hsp Hdig | c s1 ts1 Hsp Hal ]; subst.
    - rewrite (isdigit_not_space _ Hd) in *; discriminate.
    - assert (String d run = run' /\ s0 = s1) as [<- <-].
      { assert (Hall : all_digits (String d run) = true)
          by (simpl; rewrite Hd; exact Hrun).
        pose proof (take_digits_run (String d run) s0 Hall Hstop) as T1.
        pose proof (skip_digits_run (String d run) s0 Hall Hstop) as S1.
        pose proof (take_digits_run run' s1 Hrun' Hstop') as T2.
        pose proof (skip_digits_run run' s1 Hrun' Hstop') as S2.
        rewrite Heq in T2, S2.
        change (String d run ++ s0)%string with (String d (run ++ s0))
          in T1, S1.
        split; congruence. }
      f_equal. eapply IH; [exact Hlen | eassumption | eassumption].
    - congruence.
    - rewrite (isdigit_alnum _ Hd) in *; discriminate. }
  intros ts ts' H H'.
  inversion H as
    [ | c s1 ts1 Hsp Hts1 | run s1 ts1 Hne Hrun Hstop Hts1
      | c s1 ts1 Hsp Hdig Hal Hts1 | c s1 ts1 Hsp Hal Hts1 ]; subst.
  - inversion H'; subst; try reflexivity.
    destruct run; [congruence | discriminate].
  - inversion H' as
      [ | c' s' ts2 Hsp' Hts2 | run s' ts2 Hne Hrun Hstop Hts2 Heq
        | c' s' ts2 Hsp' Hdig' Hal' Hts2 | c' s' ts2 Hsp' Hal' Hts2 ]; subst;
      try congruence.
    + eapply IH; [| eassumption | eassumption]; simpl; lia.
    + destruct run as [|d run]; [congruence|]. simpl in Heq, Hrun.
      injection Heq as E1 E2; subst. apply andb_prop in Hrun as [Hd _].
      rewrite (isdigit_not_space _ Hd) in *; discriminate.
  - eapply Hnum; eauto.
  - symmetry. inversion H' as
      [ | c' s' ts2 Hsp' Hts2 | run s' ts2 Hne Hrun Hstop Hts2 Heq
        | c' s' ts2 Hsp' Hdig' Hal' Hts2 | c' s' ts2 Hsp' Hal' Hts2 ]; subst;
      try congruence.
    + destruct run as [|d run]; [congruence|]. simpl in Heq, Hrun.
      injection Heq as E1 E2; subst. apply andb_prop in Hrun as [Hd _].
      congruence.
    + f_equal. symmetry. eapply IH; [| eassumption | eassumption]; simpl; lia.
  - symmetry. inversion H' as
      [ | c' s' ts2 Hsp' Hts2 | run s' ts2 Hne Hrun Hstop Hts2 Heq
        | c' s' ts2 Hsp' Hdig' Hal' Hts2 | c' s' ts2 Hsp' Hal' Hts2 ]; subst;
      try congruence.
    + destruct run as [|d run]; [congruence|]. simpl in Heq, Hrun.
      injection Heq as E1 E2; subst. apply andb_prop in Hrun as [Hd _].
      rewrite (isdigit_alnum _ Hd) in *; discriminate.
    + f_equal. symmetry. eapply IH; [| eassumption | eassumption]; simpl; lia.
Qed.

Lemma tokenizes_no_end s ts : tokenizes s ts -> existsb is_end ts = false.
Proof. induction 1; simpl; auto. Qed.

Lemma firstn_pad {A} (d : A) n : forall l k,
  firstn n (l ++ repeat d (n + k)) = firstn n (l ++ repeat d n).
Proof.
  induction n as [|n IH]; intros l k; [reflexivity|].
  destruct l as [|x l]; simpl.
  - f_equal. apply (IH [] k).
  - f_equal. change (d :: repeat d (n + k)) with (repeat d (S (n + k))).
    change (d :: repeat d n) with (repeat d (S n)).
    replace (S (n + k)) with (n + S k)%nat by lia.
    rewrite IH. symmetry.
    replace (S n) with (n + 1)%nat by lia. apply IH.
Qed.

Lemma drain_rev n : forall ts,
  drain n (mkLexer (rev ts)) =
  (firstn n (ts ++ repeat EofToken n), mkLexer (rev (skipn n ts))).
Proof.
  induction n as [|n IH]; intros ts; simpl; [reflexivity|].
  destruct ts as [|t ts]; simpl.
  - unfold next; simpl. specialize (IH []). simpl in IH.
    rewrite IH. rewrite skipn_nil. reflexivity.
  - rewrite next_snoc, IH. f_equal. f_equal.
    change (EofToken :: repeat EofToken n) with (repeat EofToken (S n)).
    replace (S n) with (n + 1)%nat by lia.
    rewrite firstn_pad. reflexivity.
Qed.

Lemma peek_rev ts : peek (mkLexer (rev ts)) = hd EofToken ts.
Proof.
  destruct ts as [|t ts]; simpl; [reflexivity|]. apply peek_snoc.
Qed.

Lemma hd_skipn {A} (d : A) n : forall l, hd d (skipn n l) = nth n l d.
Proof.
  induction n as [|n IH]; intros [|x l]; simpl; auto.
Qed.

(** C9.  The tokenizer yields, in input order, the leaf and operator
    tokens the contract [tokenizes] describes (maximal digit runs as one
    numeric leaf, other alphanumerics as one-character leaves, other
    non-blank characters as one-character operators, blanks dropped),
    none of them an end marker, followed by one end marker; [next] hands
    them out in that order and then the end marker for ever, and [peek]
    always shows the token [next] would hand out. *)
Theorem tokenizer_and_cursor (input : string) :
  exists toks,
    tokenizes input toks /\
    existsb is_end toks = false /\
    tokens (Lexer_new input) = rev (toks ++ [EofToken]) /\
    forall n,
      fst (drain n (Lexer_new input)) =
        firstn n ((toks ++ [EofToken]) ++ repeat EofToken n) /\
      peek (snd (drain n (Lexer_new input))) = nth n toks EofToken.
Proof.
  exists (lex_loop input []).
  pose proof (lex_loop_tokenizes input) as Htok.
  split; [exact Htok|]. split; [exact (tokenizes_no_end _ _ Htok)|].
  split; [reflexivity|]. intros n. unfold Lexer_new.
  rewrite drain_rev. simpl. split; [reflexivity|].
  rewrite peek_rev, hd_skipn.
  destruct (Nat.lt_ge_cases n (length (lex_loop input []))) as [Hlt | Hge].
  - rewrite app_nth1 by exact Hlt. reflexivity.
  - rewrite app_nth2 by exact Hge. rewrite (nth_overflow _ _ Hge).
    destruct (n - length (lex_loop input []))%nat as [|[|k]]; reflexivity.
Qed.

(** ** Rendering *)

Lemma oss_fold (f : Sexp -> string) rest : forall oss own,
  (fold_left (fun oss s' => oss ++ f s' ++ " ") rest oss ++ own)%string =
  (oss ++ children_then (map f rest) own)%string.
Proof.
  induction rest as [|s rest IH]; intros oss own; simpl; [reflexivity|].
  rewrite IH, !append_assoc. reflexivity.
Qed.

Lemma to_string_node head rest :
  to_string (mkS head rest) = children_then (map to_string rest) head.
Proof. simpl. rewrite oss_fold. reflexivity. Qed.

Lemma concat_blank_app l1 l2 :
  l1 <> [] -> l2 <> [] ->
  String.concat " " (l1 ++ l2) =
  (String.concat " " l1 ++ " " ++ String.concat " " l2)%string.
Proof.
  intros H1 H2. induction l1 as [|x l1 IH]; [congruence|].
  destruct l1 as [|y l1].
  - simpl. destruct l2; [congruence | reflexivity].
  - specialize (IH ltac:(discriminate)).
    change (String.concat " " ((x :: y :: l1) ++ l2))
      with (x ++ " " ++ String.concat " " ((y :: l1) ++ l2))%string.
    rewrite IH.
    change (String.concat " " (x :: y :: l1))
      with (x ++ " " ++ String.concat " " (y :: l1))%string.
    rewrite !append_assoc. reflexivity.
Qed.

Lemma postfix_nonempty s : postfix s <> [].
Proof.
  destruct s as [h r]; simpl. destruct (flat_map postfix r); discriminate.
Qed.

(** C8.  The rendering of a node is the renderings of its children, left
    to right, each followed by a blank, then the node's own head; read as
    a sequence of blank-separated symbols it is the postfix sequence of
    the tree. *)
Theorem to_string_children_before_parent (s : Sexp) :
  to_string s = children_then (map to_string (rest s)) (head s) /\
  to_string s = String.concat " " (postfix s).
Proof.
  split; [destruct s; apply to_string_node|].
  induction s as [h r IH] using Sexp_rect'.
  rewrite to_string_node. simpl postfix.
  induction IH as [|s r Hs Hr IHr]; [reflexivity|].
  simpl. rewrite IHr, Hs, <- app_assoc.
  rewrite (concat_blank_app (postfix s));
    [reflexivity | apply postfix_nonempty |].
  destruct (flat_map postfix r); discriminate.
Qed.

(** ** Parsing *)

Example rpn_sum : rpn 10 "3 + 4" = Returns "3 4 +"%string.
Proof. reflexivity. Qed.

Lemma Lexer_new_tokens input :
  Lexer_new input = mkLexer (rev (lex_loop input [] ++ [EofToken])).
Proof. reflexivity. Qed.

Lemma isalnum_false c : isalnum c = false -> isdigit c = false.
Proof.
  unfold isalnum. intros H. apply orb_false_elim in H as [H _]. exact H.
Qed.

(** A numeric literal at the head of the input, followed by something
    that does not continue it. *)
Lemma lex_loop_number n s tokens :
  n <> "" -> all_digits n = true -> isdigit (char0 s) = false ->
  lex_loop (n ++ s)%string tokens = lex_loop s (tokens ++ [mkToken Atom n]).
Proof.
  intros Hne Hn Hs. destruct n as [|d r]; [congruence|].
  simpl in Hn. apply andb_prop in Hn as [Hd Hr].
  change (String d r ++ s)%string with (String d (r ++ s)).
  rewrite lex_loop_cons, (isdigit_not_space _ Hd), Hd.
  rewrite take_digits_run, skip_digits_run by assumption. reflexivity.
Qed.

Lemma lex_loop_operator c s tokens :
  isspace c = false -> isalnum c = false ->
  lex_loop (String c s) tokens =
  lex_loop s (tokens ++ [mkToken Op (string1 c)]).
Proof.
  intros Hsp Hal.
  rewrite lex_loop_cons, Hsp, (isalnum_false _ Hal), Hal. reflexivity.
Qed.

Lemma lex_loop_nil tokens : lex_loop "" tokens = tokens.
Proof. simp lex_loop. reflexivity. Qed.

Lemma string1_eqb_paren c :
  prefix_binding_power c = -1 -> String.eqb (string1 c) "(" = false.
Proof.
  intros H. apply String.eqb_neq. intros E.
  injection E as ->. discriminate H.
Qed.

(** C6.  ["3 + 4 * 5"] is rendered ["3 4 5 * +"] and ["3 * 4 + 5"] is
    rendered ["3 4 * 5 +"]; the infix powers are (5,6) for [+ -] and
    (7,8) for [* /]. *)
Theorem precedence_ordering :
  rpn_returns "3 + 4 * 5" "3 4 5 * +" /\
  rpn_returns "3 * 4 + 5" "3 4 * 5 +" /\
  infix_binding_power "+" = (5, 6) /\ infix_binding_power "-" = (5, 6) /\
  infix_binding_power "*" = (7, 8) /\ infix_binding_power "/" = (7, 8).
Proof.
  repeat split; try (exists 8%nat; vm_compute; reflexivity).
Qed.

(** C1.  On ["(3 + 4) * 5"] the parser returns a tree rendered
    ["3 4 ) 5 * +"]: the closing delimiter is taken as a postfix operator
    of [4] inside the operand of [+], and [*] then binds [4 )] with [5].
    The rendering [test_parentheses] expects, ["3 4 + 5 *"], is not
    produced. *)
Theorem grouping_keeps_closing_delimiter :
  rpn_returns "(3 + 4) * 5" "3 4 ) 5 * +" /\
  ~ rpn_returns "(3 + 4) * 5" "3 4 + 5 *".
Proof.
  assert (H : rpn_returns "(3 + 4) * 5" "3 4 ) 5 * +")
    by (exists 10%nat; vm_compute; reflexivity).
  split; [exact H|]. intros H'.
  pose proof (rpn_returns_unique _ _ _ H H') as E. discriminate E.
Qed.

(** C2.  Two leaves next to each other stop the parser's loop from
    making progress: on ["456 789"], the input of [test_no_operators],
    and on ["3 4"], no amount of fuel brings [expr] back. *)
Theorem adjacent_leaves_never_return :
  expr_diverges "456 789" /\ expr_diverges "3 4".
Proof.
  split; intros fuel; unfold expr.
  - change (Lexer_new "456 789")
      with (mkLexer ([EofToken] ++ [mkToken Atom "789"; mkToken Atom "456"])).
    rewrite expr_bp_adjacent_atoms; reflexivity.
  - change (Lexer_new "3 4")
      with (mkLexer ([EofToken] ++ [mkToken Atom "4"; mkToken Atom "3"])).
    rewrite expr_bp_adjacent_atoms; reflexivity.
Qed.

(** C7.  A lone operator character without a prefix power, such as
    ["="], makes [expr] throw; no tree is returned. *)
Theorem lone_operator_throws (c : ascii) :
  isspace c = false -> isalnum c = false -> prefix_binding_power c = -1 ->
  expr 2 (string1 c) = Throws "Unexpected token" /\
  expr_throws (string1 c) /\
  forall s, ~ expr_returns (string1 c) s.
Proof.
  intros Hsp Hal Hpre.
  assert (E : expr 2 (string1 c) = Throws "Unexpected token").
  { unfold expr, string1. rewrite Lexer_new_tokens.
    rewrite lex_loop_operator, lex_loop_nil by assumption.
    cbn -[String.eqb prefix_binding_power].
    rewrite (string1_eqb_paren _ Hpre). reflexivity. }
  split; [exact E|]. split; [exists 2%nat; eexists; exact E|].
  intros s [fuel Hs].
  assert (Returns s = Throws "Unexpected token") as X
    by (eapply expr_run_unique; eauto; discriminate).
  discriminate X.
Qed.

Lemma lone_operator_throws_witness :
  expr 2 "=" = Throws "Unexpected token" /\
  expr_throws "=" /\ forall s, ~ expr_returns "=" s.
Proof. apply (lone_operator_throws "="%char); reflexivity. Defined.

(** An operator without postfix and infix powers in lookahead position,
    at a minimum power that is not negative: the loop returns what it
    has and reads nothing. *)
Lemma expr_loop_unbound_lookahead fuel lhs lexer min_bp :
  type (peek lexer) = Op -> 0 <= min_bp ->
  postfix_binding_power (char0 (value (peek lexer))) = -1 ->
  infix_binding_power (char0 (value (peek lexer))) = (-1, -1) ->
  expr_loop (S fuel) lhs lexer min_bp = Returns (lhs, lexer).
Proof.
  intros Hop Hbp Hpost Hinf. simpl. rewrite Hop, Hpost, Hinf.
  replace (-1 >=? min_bp) with false
    by (symmetry; rewrite Z.geb_leb; apply Z.leb_gt; lia).
  replace (-1 <? min_bp) with true by (symmetry; apply Z.ltb_lt; lia).
  reflexivity.
Qed.

(** ["3 $ 4"]: [$] has no infix and no postfix power, yet the parse
    returns, with the leaf [3]; and ["=3"], where [=] has no prefix
    power, returns a tree as well. *)
Lemma unbound_operator_parses :
  postfix_binding_power "$" = -1 /\ infix_binding_power "$" = (-1, -1) /\
  expr_returns "3 $ 4" (mkS "3" []) /\ ~ expr_throws "3 $ 4" /\
  prefix_binding_power "=" = -1 /\
  expr_returns "=3" (mkS "=" [mkS "3" []]) /\ ~ expr_throws "=3".
Proof.
  assert (H : expr_returns "3 $ 4" (mkS "3" []))
    by (exists 2%nat; vm_compute; reflexivity).
  assert (H' : expr_returns "=3" (mkS "=" [mkS "3" []]))
    by (exists 3%nat; vm_compute; reflexivity).
  repeat split; try reflexivity; try assumption.
  - exact (expr_returns_not_throws _ _ H).
  - exact (expr_returns_not_throws _ _ H').
Qed.

(** In lookahead position a missing table entry is the power -1, which
    ends the loop.  An operator without postfix and infix powers that
    follows a numeric literal stops the loop at minimum power 0: the
    parse returns the leaf read so far and leaves the operator and
    everything after it unread; nothing is thrown. *)
Theorem unbound_operator_is_not_rejected (c : ascii) (n rest : string) :
  isspace c = false -> isalnum c = false ->
  n <> "" -> all_digits n = true ->
  postfix_binding_power c = -1 -> infix_binding_power c = (-1, -1) ->
  expr_returns (n ++ String c rest) (mkS n []) /\
  ~ expr_throws (n ++ String c rest).
Proof.
  intros Hsp Hal Hne Hn Hpost Hinf.
  assert (Hc : isdigit (char0 (String c rest)) = false)
    by (exact (isalnum_false _ Hal)).
  assert (H : expr_returns (n ++ String c rest) (mkS n [])).
  { exists 2%nat. unfold expr. rewrite Lexer_new_tokens.
    rewrite lex_loop_number, lex_loop_operator, lex_loop_acc by assumption.
    rewrite rev_app_distr, (rev_app_distr _ (lex_loop rest [])).
    cbn [rev app].
    match goal with
    | |- context [mkLexer (?e :: ?l ++ [?a; ?b])] =>
        replace (e :: l ++ [a; b]) with (((e :: l) ++ [a]) ++ [b])
          by (rewrite <- app_assoc; reflexivity)
    end.
    cbn [expr_bp]. rewrite next_snoc. cbn [type value].
    rewrite expr_loop_unbound_lookahead;
      rewrite ?peek_snoc; try reflexivity; assumption. }
  split; [exact H | exact (expr_returns_not_throws _ _ H)].
Qed.

Lemma unbound_operator_is_not_rejected_witness :
  expr_returns "41$ 7" (mkS "41" []) /\ ~ expr_throws "41$ 7".
Proof.
  apply (unbound_operator_is_not_rejected "$"%char "41" " 7");
    solve [reflexivity | discriminate].
Defined.

(** C4.  An operator in prefix position for which
    [prefix_binding_power] has no entry is not rejected: the answer -1
    is handed on unchecked as the minimum power of the operand, beside
    the branch that throws "Unexpected token".  For every such operator
    character [c] and numeric literal [n], [expr] on [c n] returns the
    tree of [c] over [n], rendered [n c], and throws nothing; on
    ["=3"], where [=] has no prefix power, the rendering is ["3 ="].
    On [")3 + 4("], which the comment in [test_edge_cases] expects to be
    rejected, nothing is thrown either: at minimum power -1 the operand
    of [)] takes [+] as a postfix operator, and the loop then spins in
    front of [4]. *)
Theorem unbound_prefix_operator_returns_a_tree (c : ascii) (n : string) :
  isspace c = false -> isalnum c = false ->
  n <> "" -> all_digits n = true ->
  prefix_binding_power c = -1 ->
  expr_returns (String c n) (mkS (string1 c) [mkS n []]) /\
  rpn_returns (String c n) (n ++ " " ++ string1 c) /\
  ~ expr_throws (String c n) /\
  rpn_returns "=3" "3 =" /\ ~ expr_throws "=3" /\
  expr_diverges ")3 + 4(".
Proof.
  intros Hsp Hal Hne Hn Hpre.
  assert (E : expr 3 (String c n) = Returns (mkS (string1 c) [mkS n []])).
  { unfold expr. rewrite Lexer_new_tokens.
    rewrite lex_loop_operator by assumption.
    replace (lex_loop n) with (lex_loop (n ++ ""))
      by (rewrite append_nil_r; reflexivity).
    rewrite lex_loop_number, lex_loop_nil by (auto; reflexivity).
    cbn -[String.eqb prefix_binding_power].
    rewrite (string1_eqb_paren _ Hpre). reflexivity. }
  assert (H : expr_returns (String c n) (mkS (string1 c) [mkS n []]))
    by (exists 3%nat; exact E).
  assert (H3 : expr_returns "=3" (mkS "=" [mkS "3" []]))
    by (exists 3%nat; reflexivity).
  split; [exact H|]. split.
  { exists 3%nat. unfold rpn. rewrite E. cbn. rewrite append_assoc.
    reflexivity. }
  split; [exact (expr_returns_not_throws _ _ H)|].
  split; [exists 3%nat; reflexivity|].
  split; [exact (expr_returns_not_throws _ _ H3)|].
  intros fuel. unfold expr.
  change (Lexer_new ")3 + 4(")
    with (mkLexer [EofToken; mkToken Op "("; mkToken Atom "4";
                   mkToken Op "+"; mkToken Atom "3"; mkToken Op ")"]).
  destruct fuel as [|[|[|fuel]]]; try reflexivity.
  simpl. rewrite expr_loop_atom_lookahead by reflexivity. reflexivity.
Qed.

Lemma unbound_prefix_operator_returns_a_tree_witness :
  expr_returns "=3" (mkS "=" [mkS "3" []]) /\
  rpn_returns "=3" "3 =" /\
  ~ expr_throws "=3" /\
  rpn_returns "=3" "3 =" /\ ~ expr_throws "=3" /\
  expr_diverges ")3 + 4(".
Proof.
  apply (unbound_prefix_operator_returns_a_tree "="%char "3");
    solve [reflexivity | discriminate].
Defined.

Lemma lex_loop_space c s tokens :
  isspace c = true -> lex_loop (String c s) tokens = lex_loop s tokens.
Proof. intros H. rewrite lex_loop_cons, H. reflexivity. Qed.

(** A text that starts with two numeric literals, each followed by a
    blank, is never parsed. *)
Lemma two_literals_diverge n m rest :
  n <> "" -> all_digits n = true -> m <> "" -> all_digits m = true ->
  rpn_diverges (n ++ " " ++ m ++ " " ++ rest).
Proof.
  intros Hn Dn Hm Dm fuel. unfold rpn, expr. rewrite Lexer_new_tokens.
  change (" " ++ m ++ " " ++ rest)%string
    with (String " " (m ++ String " " rest)).
  rewrite lex_loop_number, lex_loop_space by (auto; reflexivity).
  rewrite lex_loop_number, lex_loop_acc by (auto; reflexivity).
  rewrite rev_app_distr, (rev_app_distr _ (lex_loop _ [])).
  cbn [rev app]. rewrite app_comm_cons.
  rewrite expr_bp_adjacent_atoms; reflexivity.
Qed.

(** The rendering of a tree of the fragment starts with a literal; if
    the tree has an operator, a blank, a second literal and a blank
    follow. *)
Lemma arith_tree_rendering t :
  arith_tree t ->
  exists n, n <> "" /\ all_digits n = true /\
    ((to_string t = n /\ rest t = []) \/
     exists m more, m <> "" /\ all_digits m = true /\
       to_string t = (n ++ " " ++ m ++ " " ++ more)%string).
Proof.
  induction 1 as [n Hn Dn | c l r Hc Hl IHl Hr IHr].
  - exists n. split; [exact Hn|]. split; [exact Dn|]. left. split; reflexivity.
  - rewrite to_string_node. cbn [map children_then].
    destruct IHl as (n & Hn & Dn & [[El _] | (m & more & Hm & Dm & El)]);
      exists n; (split; [exact Hn|]); (split; [exact Dn|]); right; rewrite El.
    + destruct IHr as (n' & Hn' & Dn' & [[Er _] | (m & more & Hm & Dm & Er)]);
        rewrite Er.
      * exists n', (string1 c). auto.
      * exists n', (m ++ " " ++ more ++ " " ++ string1 c)%string.
        split; [exact Hn'|]. split; [exact Dn'|].
        rewrite !append_assoc. reflexivity.
    + exists m, (more ++ " " ++ to_string r ++ " " ++ string1 c)%string.
      split; [exact Hm|]. split; [exact Dm|].
      rewrite !append_assoc. reflexivity.
Qed.

(** No rendering of the fragment with an operator in it is parsed back. *)
Lemma arith_rendering_reparse_diverges t :
  arith_tree t -> rest t <> [] -> rpn_diverges (to_string t).
Proof.
  intros Ht Hop.
  destruct (arith_tree_rendering t Ht)
    as (n & Hn & Dn & [[_ E] | (m & more & Hm & Dm & E)]); [congruence|].
  rewrite E. apply two_literals_diverge; assumption.
Qed.

(** ["3 + 4"] is rendered ["3 4 +"], and ["3 4 +"] is never parsed. *)
Lemma reparse_of_postfix_diverges :
  rpn_returns "3 + 4" "3 4 +" /\ rpn_diverges "3 4 +" /\
  ~ (exists out, rpn_returns "3 4 +" out).
Proof.
  assert (D : rpn_diverges "3 4 +").
  { intros fuel; unfold rpn, expr.
    change (Lexer_new "3 4 +")
      with (mkLexer ([EofToken; mkToken Op "+"]
                     ++ [mkToken Atom "4"; mkToken Atom "3"])).
    rewrite expr_bp_adjacent_atoms; reflexivity. }
  split; [exists 6%nat; vm_compute; reflexivity|]. split; [exact D|].
  intros [out [fuel H]]. rewrite D in H. discriminate H.
Qed.

Lemma isspace_not_digit c : isspace c = true -> isdigit c = false.
Proof.
  intros H. destruct (isdigit c) eqn:E; [|reflexivity].
  rewrite (isdigit_not_space _ E) in H. discriminate H.
Qed.

Lemma all_spaces_no_digit ws :
  all_spaces ws = true -> isdigit (char0 ws) = false.
Proof.
  destruct ws as [|c ws]; simpl; [reflexivity|].
  intros H. apply andb_prop in H as [H _]. exact (isspace_not_digit _ H).
Qed.

Lemma lex_loop_spaces ws s tokens :
  all_spaces ws = true -> lex_loop (ws ++ s)%string tokens = lex_loop s tokens.
Proof.
  induction ws as [|c ws IH]; simpl; [reflexivity|].
  intros H. apply andb_prop in H as [Hc Hws].
  rewrite lex_loop_space by exact Hc. exact (IH Hws).
Qed.

(** C3, as the code has it.  A numeric literal, with or without blanks
    around it, is parsed to a leaf and rendered as the literal, and the
    literal is parsed and rendered as itself again. *)
Theorem literal_round_trip (ws1 n ws2 : string) :
  all_spaces ws1 = true -> all_spaces ws2 = true ->
  n <> "" -> all_digits n = true ->
  exists out,
    rpn_returns (ws1 ++ n ++ ws2) out /\ rpn_returns out out /\ out = n.
Proof.
  intros Hws1 Hws2 Hne Hn.
  assert (H : forall ws1 ws2, all_spaces ws1 = true -> all_spaces ws2 = true ->
                rpn_returns (ws1 ++ n ++ ws2) n).
  { clear ws1 ws2 Hws1 Hws2. intros ws1 ws2 Hws1 Hws2.
    exists 2%nat. unfold rpn, expr. rewrite Lexer_new_tokens.
    rewrite lex_loop_spaces by exact Hws1.
    rewrite lex_loop_number by (auto using all_spaces_no_digit).
    rewrite <- (append_nil_r ws2), lex_loop_spaces, lex_loop_nil by exact Hws2.
    reflexivity. }
  exists n. split; [exact (H ws1 ws2 Hws1 Hws2)|]. split; [|reflexivity].
  rewrite <- (append_nil_r n) at 1. exact (H "" "" eq_refl eq_refl).
Qed.

Lemma literal_round_trip_witness :
  exists out,
    rpn_returns (" " ++ "1234" ++ "  ") out /\ rpn_returns out out /\
    out = "1234".
Proof.
  apply (literal_round_trip " " "1234" "  ");
    solve [reflexivity | discriminate].
Defined.

(** ** The back end: what is emitted *)

Example compile_sum :
  compile_rpn (-128) "3 4 +" =
  Code [jit_getarg JIT_R2;
        jit_stxi_i (-128) JIT_R0; jit_movi JIT_R0 3;
        jit_stxi_i (-124) JIT_R0; jit_movi JIT_R0 4;
        jit_ldxi_i JIT_R1 (-124); jit_addr JIT_R0 JIT_R1 JIT_R0;
        jit_retr JIT_R0].
Proof. reflexivity. Qed.

Example eval_sum w r0 r1 r2 a junk :
  eval_call w (-128) "3 4 +" (entry r0 r1 r2 a junk) = Some (Value 7).
Proof. destruct w; reflexivity. Qed.

(** ** The text [eval] hands over *)

Lemma c_str_app_no_nul s1 s2 :
  c_str s1 = s1 -> c_str (s1 ++ s2) = (s1 ++ c_str s2)%string.
Proof.
  induction s1 as [|c s1 IH]; simpl; [reflexivity|].
  destruct (Ascii.eqb c NUL); [discriminate|].
  intros [= H]. rewrite (IH H). reflexivity.
Qed.

Lemma c_str_digits n : all_digits n = true -> c_str n = n.
Proof.
  induction n as [|c n IH]; simpl; [reflexivity|].
  intros H. apply andb_prop in H as [Hc Hn].
  replace (Ascii.eqb c NUL) with false
    by (symmetry; apply Ascii.eqb_neq; intros ->; discriminate Hc).
  rewrite (IH Hn). reflexivity.
Qed.

Lemma c_str_concat_blank l :
  Forall (fun v => c_str v = v) l ->
  c_str (String.concat " " l) = String.concat " " l.
Proof.
  induction 1 as [|v l Hv _ IH]; [reflexivity|].
  destruct l as [|v' l]; [exact Hv|].
  change (String.concat " " (v :: v' :: l))
    with (v ++ String " " (String.concat " " (v' :: l)))%string.
  rewrite c_str_app_no_nul by exact Hv.
  cbn [c_str Ascii.eqb NUL Bool.eqb]. rewrite IH. reflexivity.
Qed.

Lemma c_str_idempotent s : c_str (c_str s) = c_str s.
Proof.
  induction s as [|c s IH]; simpl; [reflexivity|].
  destruct (Ascii.eqb c NUL) eqn:E; [reflexivity|].
  simpl. rewrite E, IH. reflexivity.
Qed.

Lemma compile_loop_cons c rest stack_ptr code :
  compile_loop (String c rest) stack_ptr code =
  if isdigit c then
    let buf := String c (take_digits rest) in
    if (32 <=? String.length buf)%nat then Undefined
    else if INT_MAX <? atoi buf then Undefined
    else
      compile_loop (skip_digits rest) (stack_ptr + sizeof_int)
        (code ++ [jit_stxi_i stack_ptr JIT_R0; jit_movi JIT_R0 (atoi buf)])
  else if Ascii.eqb c "+" then
    compile_loop rest (stack_ptr - sizeof_int)
      (code ++ [jit_ldxi_i JIT_R1 (stack_ptr - sizeof_int);
                jit_addr JIT_R0 JIT_R1 JIT_R0])
  else if Ascii.eqb c "-" then
    compile_loop rest (stack_ptr - sizeof_int)
      (code ++ [jit_ldxi_i JIT_R1 (stack_ptr - sizeof_int);
                jit_subr JIT_R0 JIT_R1 JIT_R0])
  else if Ascii.eqb c "*" then
    compile_loop rest (stack_ptr - sizeof_int)
      (code ++ [jit_ldxi_i JIT_R1 (stack_ptr - sizeof_int);
                jit_mulr JIT_R0 JIT_R1 JIT_R0])
  else if Ascii.eqb c "/" then
    compile_loop rest (stack_ptr - sizeof_int)
      (code ++ [jit_ldxi_i JIT_R1 (stack_ptr - sizeof_int);
                jit_divr JIT_R0 JIT_R1 JIT_R0])
  else if Ascii.eqb c "(" || Ascii.eqb c ")" || Ascii.eqb c " " then
    compile_loop rest stack_ptr code
  else Abort.
Proof.
  simp compile_loop. destruct (isdigit c); simpl.
  - unfold stack_push. rewrite <- !app_assoc. reflexivity.
  - unfold stack_pop. rewrite <- !app_assoc. reflexivity.
Qed.

Lemma compile_loop_nil stack_ptr code :
  compile_loop "" stack_ptr code = Code code.
Proof. simp compile_loop. reflexivity. Qed.

Lemma numeral_inv s :
  numeral s = true ->
  s <> "" /\ all_digits s = true /\
  (32 <=? String.length s)%nat = false /\ (INT_MAX <? atoi s) = false.
Proof.
  unfold numeral. intros H.
  apply andb_prop in H as [H H4]. apply andb_prop in H as [H H3].
  apply andb_prop in H as [H1 H2].
  repeat split; auto.
  - intros ->. discriminate H1.
  - apply Nat.leb_gt. apply Nat.ltb_lt in H3. exact H3.
  - apply Z.ltb_ge. apply Z.leb_le in H4. exact H4.
Qed.

Lemma compile_loop_numeral x s stack_ptr code :
  numeral x = true -> isdigit (char0 s) = false ->
  compile_loop (x ++ s)%string stack_ptr code =
  compile_loop s (stack_ptr + sizeof_int)
    (code ++ [jit_stxi_i stack_ptr JIT_R0; jit_movi JIT_R0 (atoi x)]).
Proof.
  intros Hx Hs. apply numeral_inv in Hx as (Hne & Hall & Hlen & Hmax).
  destruct x as [|d r]; [congruence|].
  pose proof Hall as Hall'. simpl in Hall'.
  apply andb_prop in Hall' as [Hd Hr].
  change (String d r ++ s)%string with (String d (r ++ s)).
  rewrite compile_loop_cons, Hd. cbv zeta.
  rewrite take_digits_run, skip_digits_run by assumption.
  rewrite Hlen, Hmax. reflexivity.
Qed.

(** ** The back end: what the code computes *)

Lemma wrap_small bits z :
  0 < bits -> - 2 ^ (bits - 1) <= z < 2 ^ (bits - 1) -> wrap bits z = z.
Proof.
  intros Hb Hz. unfold wrap.
  assert (E : 2 ^ bits = 2 * 2 ^ (bits - 1)).
  { replace bits with (Z.succ (bits - 1)) at 1 by lia.
    rewrite Z.pow_succ_r by lia. reflexivity. }
  rewrite Z.mod_small by lia. lia.
Qed.

Lemma wrap_word_int w z :
  - 2 ^ 31 <= z <= INT_MAX -> wrap (word_bits w) z = z.
Proof.
  intros Hz. apply wrap_small; [destruct w; reflexivity|].
  unfold INT_MAX in Hz. destruct w; simpl; lia.
Qed.

Lemma frame_slot_at stack_base off k :
  0 <= k < 32 -> off = stack_base + sizeof_int * k ->
  frame_slot stack_base off = Some (Z.to_nat k).
Proof.
  intros Hk ->. unfold frame_slot, sizeof_int in *.
  replace (stack_base + 4 * k - stack_base) with (k * 4) by ring.
  rewrite Z.mod_mul, Z.div_mul by lia.
  replace (0 <=? k * 4) with true by (symmetry; apply Z.leb_le; lia).
  replace (k * 4 <? 32 * 4) with true by (symmetry; apply Z.ltb_lt; lia).
  reflexivity.
Qed.

Lemma compile_loop_blank rest stack_ptr code :
  compile_loop (String " " rest) stack_ptr code =
  compile_loop rest stack_ptr code.
Proof. rewrite compile_loop_cons. reflexivity. Qed.

Lemma is_arith_op_inv c :
  is_arith_op c = true ->
  c = "+"%char \/ c = "-"%char \/ c = "*"%char \/ c = "/"%char.
Proof.
  unfold is_arith_op. intros H.
  repeat (apply orb_prop in H as [H | H]);
    apply Ascii.eqb_eq in H; auto.
Qed.

Lemma compile_loop_op c rest stack_ptr code :
  is_arith_op c = true ->
  compile_loop (String c rest) stack_ptr code =
  compile_loop rest (stack_ptr - sizeof_int)
    (code ++ [jit_ldxi_i JIT_R1 (stack_ptr - sizeof_int); op_insn c]).
Proof.
  intros H.
  destruct (is_arith_op_inv c H) as [-> | [-> | [-> | ->]]];
    rewrite compile_loop_cons; reflexivity.
Qed.

Lemma text_cons x ws :
  text (x :: ws) =
  (word_text x ++
   match ws with [] => "" | _ => String " " (text ws) end)%string.
Proof.
  unfold text. destruct ws; simpl; [rewrite append_nil_r|]; reflexivity.
Qed.

(** The code for a postfix text is the code of its words, in order. *)
Lemma compile_loop_text ws : forall stack_ptr code,
  forallb word_ok ws = true ->
  compile_loop (text ws) stack_ptr code = Code (code ++ emitted stack_ptr ws).
Proof.
  induction ws as [|x ws IH]; intros stack_ptr code H.
  { unfold text. simpl. rewrite compile_loop_nil, app_nil_r. reflexivity. }
  simpl in H. apply andb_prop in H as [Hx Hws].
  assert (Tail : forall stack_ptr code,
             compile_loop match ws with [] => "" | _ => String " " (text ws) end
                          stack_ptr code
             = Code (code ++ emitted stack_ptr ws)).
  { intros sp c. destruct ws as [|y ws].
    - rewrite compile_loop_nil, app_nil_r. reflexivity.
    - rewrite compile_loop_blank. apply IH. exact Hws. }
  rewrite text_cons. destruct x as [digits | c]; simpl in Hx |- *.
  - rewrite compile_loop_numeral, Tail, <- app_assoc;
      [reflexivity | exact Hx | destruct ws; reflexivity].
  - rewrite compile_loop_op, Tail, <- app_assoc by exact Hx. reflexivity.
Qed.

(** A postfix text of numerals and operators holds no NUL: [eval] hands
    it over whole. *)
Lemma c_str_text ws : forallb word_ok ws = true -> c_str (text ws) = text ws.
Proof.
  intros H. unfold text. apply c_str_concat_blank.
  induction ws as [|x ws IH]; [constructor|].
  cbn [forallb] in H. apply andb_prop in H as [Hx Hws].
  cbn [map]. constructor; [|exact (IH Hws)].
  destruct x as [digits | c]; cbn [word_ok word_text] in *.
  - apply c_str_digits. exact (proj1 (proj2 (numeral_inv _ Hx))).
  - destruct (is_arith_op_inv c Hx) as [-> | [-> | [-> | ->]]]; reflexivity.
Qed.

Lemma fits_int_range v : fits_int v = true -> - 2 ^ 31 <= v <= INT_MAX.
Proof.
  unfold fits_int. intros H. apply andb_prop in H as [H1 H2].
  apply Z.leb_le in H1. apply Z.leb_le in H2. lia.
Qed.

Lemma wrap_32_int v : fits_int v = true -> wrap 32 v = v.
Proof. intros H. apply (wrap_word_int Word32), fits_int_range, H. Qed.

Lemma wrap_word_fits w v : fits_int v = true -> wrap (word_bits w) v = v.
Proof. intros H. apply wrap_word_int, fits_int_range, H. Qed.

(** An operator's two instructions: the value below the top becomes the
    left operand, the top the right one. *)
Lemma jit_run_op w stack_base c off code m k l v :
  is_arith_op c = true ->
  frame_slot stack_base off = Some k -> frame m !! k = Some l ->
  fits_int l = true -> binop c l (R0 m) = Some v -> fits_int v = true ->
  jit_run w stack_base (jit_ldxi_i JIT_R1 off :: op_insn c :: code) m =
  jit_run w stack_base code (mkMachine v l (R2 m) (arg m) (frame m)).
Proof.
  intros Hc Hslot Hl Fl Hop Fv.
  cbn [jit_run]. rewrite Hslot, Hl.
  unfold binop in Hop.
  destruct (is_arith_op_inv c Hc) as [-> | [-> | [-> | ->]]];
    cbn [op_insn Ascii.eqb Bool.eqb] in *;
    cbn [jit_run set_reg get_reg R0 R1 R2 arg frame].
  1-3: injection Hop as <-; rewrite (wrap_word_fits _ _ Fv); reflexivity.
  destruct (R0 m =? 0) eqn:Ez; [discriminate Hop|].
  injection Hop as <-.
  assert (Hov : (l =? - 2 ^ (word_bits w - 1)) && (R0 m =? -1) = false).
  { destruct (l =? _) eqn:E1; [|reflexivity].
    destruct (R0 m =? -1) eqn:E2; [|reflexivity].
    apply Z.eqb_eq in E1, E2. rewrite E2 in Fv. exfalso.
    apply fits_int_range in Fv, Fl. unfold INT_MAX in *.
    destruct w; simpl in E1; subst l; [|lia].
    change (Z.quot (- 2 ^ (32 - 1)) (-1)) with 2147483648 in Fv. lia. }
  rewrite Hov, (wrap_word_fits _ _ Fv). reflexivity.
Qed.

(** A numeral's two instructions: the old top goes to the next free
    slot, the constant becomes the top. *)
Lemma jit_run_push w stack_base off code m k i :
  frame_slot stack_base off = Some k -> (k < length (frame m))%nat ->
  fits_int i = true ->
  jit_run w stack_base (jit_stxi_i off JIT_R0 :: jit_movi JIT_R0 i :: code) m =
  jit_run w stack_base code
    (mkMachine i (R1 m) (R2 m) (arg m) (<[k := wrap 32 (R0 m)]> (frame m))).
Proof.
  intros Hslot Hk Fi. cbn [jit_run]. rewrite Hslot.
  apply Nat.ltb_lt in Hk. rewrite Hk.
  cbn [jit_run set_reg set_frame get_reg R0 R1 R2 arg frame].
  rewrite (wrap_word_fits _ _ Fi). reflexivity.
Qed.

(** The emitted code steps the way the specification's machine does. *)
Lemma jit_run_emitted w stack_base ws : forall stack m post res,
  forallb word_ok ws = true -> holds m stack ->
  stack_machine (map instruction_of ws) stack = Some res ->
  exists m',
    jit_run w stack_base
      (emitted (stack_base + sizeof_int * Z.of_nat (length stack)) ws ++ post) m
    = jit_run w stack_base post m' /\ holds m' res.
Proof.
  induction ws as [|x ws IH]; intros stack m post res Hok Hm Hrun.
  { exists m. simpl in *. injection Hrun as <-. auto. }
  simpl in Hok. apply andb_prop in Hok as [Hx Hws].
  destruct Hm as (Hlen & Hfits & Hstack).
  destruct x as [digits | c]; simpl in Hx, Hrun; cbn [emitted app].
  - destruct (fits_int (atoi digits) && (length stack <? 32)%nat) eqn:E;
      [|discriminate Hrun].
    apply andb_prop in E as [Fi Hdepth]. apply Nat.ltb_lt in Hdepth.
    rewrite (jit_run_push _ _ _ _ _ (length stack));
      [ | rewrite <- (Nat2Z.id (length stack)) at 2;
          apply frame_slot_at; [lia | reflexivity]
        | lia | exact Fi ].
    replace (stack_base + sizeof_int * Z.of_nat (length stack) + sizeof_int)
      with (stack_base + sizeof_int * Z.of_nat (length (atoi digits :: stack)))
      by (unfold sizeof_int; simpl length; lia).
    apply IH; [exact Hws | | exact Hrun].
    split; [cbn [frame]; rewrite length_insert; exact Hlen|].
    split; [simpl; rewrite Fi; exact Hfits|].
    split; [reflexivity|]. cbn [frame].
    intros j v Hj. destruct stack as [|top below]; [discriminate Hj|].
    destruct Hstack as [Htop Hbelow].
    simpl in Hfits. apply andb_prop in Hfits as [Ftop _].
    destruct j as [|j]; simpl in Hj.
    + injection Hj as <-. rewrite Nat.sub_0_r, Htop, (wrap_32_int _ Ftop).
      apply list_lookup_insert_eq. lia.
    + pose proof (lookup_lt_Some _ _ _ Hj) as Hlt.
      rewrite list_lookup_insert_ne by (simpl; lia).
      replace (length (top :: below) - S j)%nat with (length below - j)%nat
        by (simpl; lia).
      exact (Hbelow _ _ Hj).
  - destruct stack as [|r [|l st]]; try discriminate Hrun.
    destruct (binop c l r) as [v|] eqn:Hop; [|discriminate Hrun].
    destruct (fits_int v) eqn:Fv; [|discriminate Hrun].
    destruct Hstack as [Htop Hbelow].
    simpl in Hfits. apply andb_prop in Hfits as [_ Hfits].
    apply andb_prop in Hfits as [Fl Fst].
    pose proof (Hbelow 0%nat l eq_refl) as Hl. rewrite Nat.sub_0_r in Hl.
    pose proof (lookup_lt_Some _ _ _ Hl) as Hdepth. rewrite Hlen in Hdepth.
    rewrite (jit_run_op _ _ _ _ _ _ (length (l :: st)) l v);
      [ | exact Hx
        | rewrite <- (Nat2Z.id (length (l :: st)));
          apply frame_slot_at;
          [simpl length in *; lia | unfold sizeof_int; simpl length; lia]
        | exact Hl | exact Fl | rewrite Htop; exact Hop | exact Fv ].
    replace (stack_base + sizeof_int * Z.of_nat (length (r :: l :: st))
             - sizeof_int)
      with (stack_base + sizeof_int * Z.of_nat (length (v :: st)))
      by (unfold sizeof_int; simpl length; lia).
    apply IH; [exact Hws | | exact Hrun].
    split; [exact Hlen|]. split; [simpl; rewrite Fv; exact Fst|].
    split; [reflexivity|]. cbn [frame].
    intros j x Hj. specialize (Hbelow (S j) x Hj).
    simpl in Hbelow. exact Hbelow.
Qed.

(** C5.  The compiled code computes what the specification's stack
    machine computes, which applies a binary operator to the value
    pushed earlier as the left operand and the top of the stack as the
    right one: whenever the machine ends with [v] on top, the call
    returns [v].  In particular ["3 4 +"] returns 7 and ["10 5 -"]
    returns 5. *)
Theorem binary_operator_operand_order
  (w : jit_word) (stack_base r0 r1 r2 a : Z) (junk : nat -> Z)
  (ws : list word) (v : Z) (below : list Z) :
  forallb word_ok ws = true ->
  stack_machine (map instruction_of ws) [] = Some (v :: below) ->
  eval_call w stack_base (text ws) (entry r0 r1 r2 a junk) = Some (Value v) /\
  eval_call w stack_base "3 4 +" (entry r0 r1 r2 a junk) = Some (Value 7) /\
  eval_call w stack_base "10 5 -" (entry r0 r1 r2 a junk) = Some (Value 5).
Proof.
  assert (General : forall ws v below,
    forallb word_ok ws = true ->
    stack_machine (map instruction_of ws) [] = Some (v :: below) ->
    eval_call w stack_base (text ws) (entry r0 r1 r2 a junk)
    = Some (Value v)).
  { clear. intros ws v below Hok Hrun. unfold eval_call, eval, compile_rpn.
    rewrite c_str_text, compile_loop_text by exact Hok. f_equal.
    cbn [app jit_run].
    set (m0 := set_reg (entry r0 r1 r2 a junk) JIT_R2
                       (arg (entry r0 r1 r2 a junk))).
    assert (H0 : holds m0 []) by (repeat split).
    destruct (jit_run_emitted w stack_base ws [] m0 [jit_retr JIT_R0]
                (v :: below) Hok H0 Hrun) as (m' & Erun & Hm').
    replace (stack_base + sizeof_int * Z.of_nat (length (@nil Z)))
      with stack_base in Erun by (simpl; lia).
    rewrite Erun. cbn [jit_run get_reg].
    destruct Hm' as (_ & Hfits & Htop & _). rewrite Htop.
    simpl in Hfits. apply andb_prop in Hfits as [Fv _].
    rewrite (wrap_32_int _ Fv). reflexivity. }
  intros Hok Hrun. split; [exact (General ws v below Hok Hrun)|]. split.
  - exact (General [Num "3"; Num "4"; Sym "+"] 7 [] eq_refl eq_refl).
  - exact (General [Num "10"; Num "5"; Sym "-"] 5 [] eq_refl eq_refl).
Qed.

Lemma binary_operator_operand_order_witness :
  eval_call Word64 (-128) "10 5 -" (entry 0 0 0 0 (fun _ => 0))
    = Some (Value 5) /\
  eval_call Word64 (-128) "3 4 +" (entry 0 0 0 0 (fun _ => 0))
    = Some (Value 7) /\
  eval_call Word64 (-128) "10 5 -" (entry 0 0 0 0 (fun _ => 0))
    = Some (Value 5).
Proof.
  apply (binary_operator_operand_order Word64 (-128) 0 0 0 0 (fun _ => 0)
           [Num "10"; Num "5"; Sym "-"] 5 []); reflexivity.
Defined.

(** ** The back end and parentheses *)

Lemma is_paren_inv c : is_paren c = true -> c = "("%char \/ c = ")"%char.
Proof.
  unfold is_paren. intros H. apply orb_prop in H as [H | H];
    apply Ascii.eqb_eq in H; auto.
Qed.

Lemma isdigit_not_paren c : isdigit c = true -> is_paren c = false.
Proof.
  intros H. destruct (is_paren c) eqn:E; [|reflexivity].
  apply is_paren_inv in E as [-> | ->]; discriminate H.
Qed.

Lemma parens_join_digits_weaken s : forall st,
  parens_join_digits_from st s = false ->
  parens_join_digits_from Elsewhere s = false.
Proof.
  induction s as [|c s IH]; intros st H; simpl in *; [reflexivity|].
  destruct (isdigit c).
  - destruct st; auto; discriminate.
  - destruct (is_paren c); [|exact H]. destruct st; eauto.
Qed.

Lemma strip_parens_no_digit_ahead s :
  parens_join_digits_from AfterDigitParens s = false ->
  isdigit (char0 (strip_parens s)) = false.
Proof.
  induction s as [|c s IH]; simpl; [reflexivity|].
  destruct (isdigit c) eqn:Ed; [discriminate|].
  destruct (is_paren c); [exact IH|]. intros _. exact Ed.
Qed.

Lemma take_digits_blocked s : isdigit (char0 s) = false -> take_digits s = "".
Proof. destruct s as [|c s]; simpl; [reflexivity|]. intros ->. reflexivity. Qed.

Lemma skip_digits_blocked s : isdigit (char0 s) = false -> skip_digits s = s.
Proof. destruct s as [|c s]; simpl; [reflexivity|]. intros ->. reflexivity. Qed.

(** After a digit, deleting parentheses leaves the run of digits that
    follows, and what comes after the run, as they were. *)
Lemma strip_parens_digit_run s :
  parens_join_digits_from AfterDigit s = false ->
  take_digits (strip_parens s) = take_digits s /\
  skip_digits (strip_parens s) = strip_parens (skip_digits s) /\
  parens_join_digits (skip_digits s) = false.
Proof.
  induction s as [|c s IH]; simpl; [auto|].
  destruct (isdigit c) eqn:Ed.
  - rewrite (isdigit_not_paren _ Ed). simpl. rewrite Ed. intros H.
    destruct (IH H) as (-> & -> & ->). auto.
  - destruct (is_paren c) eqn:Ep; intros H.
    + pose proof (strip_parens_no_digit_ahead _ H) as Hno.
      rewrite take_digits_blocked, skip_digits_blocked by exact Hno.
      repeat split.
      * simpl. rewrite Ep. reflexivity.
      * unfold parens_join_digits. simpl. rewrite Ed, Ep.
        exact (parens_join_digits_weaken _ _ H).
    + simpl. rewrite Ed. repeat split.
      * simpl. rewrite Ep. reflexivity.
      * unfold parens_join_digits. simpl. rewrite Ed, Ep. exact H.
Qed.

Lemma compile_loop_strip_parens s : forall stack_ptr code,
  parens_join_digits s = false ->
  compile_loop s stack_ptr code = compile_loop (strip_parens s) stack_ptr code.
Proof.
  induction s as [s IH] using string_length_ind. intros stack_ptr code H.
  destruct s as [|c rest]; [reflexivity|].
  unfold parens_join_digits in H. simpl in H. simpl strip_parens.
  destruct (isdigit c) eqn:Ed.
  - rewrite (isdigit_not_paren _ Ed).
    destruct (strip_parens_digit_run _ H) as (Et & Es & Hrest).
    rewrite !compile_loop_cons, Ed. cbv zeta. rewrite Et, Es.
    destruct (_ <=? _)%nat; [reflexivity|].
    destruct (_ <? _); [reflexivity|].
    apply IH; [|exact Hrest].
    pose proof (skip_digits_length rest). simpl. lia.
  - destruct (is_paren c) eqn:Ep.
    + rewrite <- IH by (simpl; auto).
      apply is_paren_inv in Ep as [-> | ->];
        rewrite compile_loop_cons; reflexivity.
    + assert (Hrec : forall stack_ptr code,
                 compile_loop rest stack_ptr code =
                 compile_loop (strip_parens rest) stack_ptr code)
        by (intros; apply IH; simpl; auto).
      rewrite !compile_loop_cons, Ed.
      repeat (destruct (Ascii.eqb c _); [apply Hrec|]).
      destruct (_ || _); [apply Hrec | reflexivity].
Qed.

(** *** Renderings of parsed trees *)

Lemma parens_join_digits_blank s1 s2 : forall st,
  parens_join_digits_from st (s1 ++ String " " s2) =
  parens_join_digits_from st s1 || parens_join_digits_from Elsewhere s2.
Proof.
  induction s1 as [|c s1 IH]; intros st; simpl; [reflexivity|].
  destruct (isdigit c); [destruct st; auto|].
  destruct (is_paren c); [destruct st; auto | auto].
Qed.

Lemma parens_join_digits_run n : forall st,
  all_digits n = true -> st <> AfterDigitParens ->
  parens_join_digits_from st n = false.
Proof.
  induction n as [|c n IH]; intros st Hn Hst; simpl in *; [reflexivity|].
  apply andb_prop in Hn as [-> Hn].
  destruct st; try congruence; apply IH; auto; discriminate.
Qed.

Lemma parens_join_digits_char c : parens_join_digits (string1 c) = false.
Proof.
  unfold parens_join_digits, string1. simpl.
  destruct (isdigit c); [reflexivity|]. destruct (is_paren c); reflexivity.
Qed.

Lemma tokenizes_safe s ts :
  tokenizes s ts -> forallb (fun t => head_is_safe (value t)) ts = true.
Proof.
  unfold head_is_safe.
  induction 1 as [ | | run s ts Hne Hrun | | ]; simpl; auto.
  - rewrite IHtokenizes. unfold parens_join_digits.
    rewrite parens_join_digits_run by (auto; discriminate). reflexivity.
  - rewrite IHtokenizes, parens_join_digits_char. reflexivity.
  - rewrite IHtokenizes, parens_join_digits_char. reflexivity.
Qed.

Section ParsedHeads.
Variable q : string -> bool.
Hypothesis q_end : q "" = true.

Lemma next_good lexer :
  tokens_pass q lexer ->
  q (value (fst (next lexer))) = true /\ tokens_pass q (snd (next lexer)).
Proof.
  unfold tokens_pass. destruct lexer as [ts].
  destruct ts as [|t ts _] using rev_ind; [simpl; auto|].
  rewrite next_snoc. cbn [tokens fst snd]. rewrite forallb_app. simpl.
  intros H. apply andb_prop in H as [H1 H2].
  apply andb_prop in H2 as [H2 _]. auto.
Qed.

Lemma expr_bp_heads fuel :
  (forall lexer bp t lexer',
     tokens_pass q lexer -> expr_bp fuel lexer bp = Returns (t, lexer') ->
     all_heads q t = true /\ tokens_pass q lexer') /\
  (forall lhs lexer bp t lexer',
     tokens_pass q lexer -> all_heads q lhs = true ->
     expr_loop fuel lhs lexer bp = Returns (t, lexer') ->
     all_heads q t = true /\ tokens_pass q lexer').
Proof.
  induction fuel as [|fuel [IHb IHl]]; [split; intros; discriminate|].
  split.
  - intros lexer bp t lexer' Hg. simpl.
    destruct (next_good lexer Hg) as [Hq Hg'].
    destruct (next lexer) as [token lexer1]. cbn [fst snd] in Hq, Hg'.
    destruct (type token); [| |discriminate].
    + apply IHl; [exact Hg'|]. simpl. rewrite Hq. reflexivity.
    + destruct (String.eqb _ _).
      * destruct (expr_bp fuel lexer1 0) as [[lhs lexer2]| |] eqn:E;
          try discriminate. simpl.
        destruct (IHb _ _ _ _ Hg' E). apply IHl; assumption.
      * destruct (expr_bp fuel lexer1 _) as [[rhs lexer2]| |] eqn:E;
          try discriminate. simpl.
        destruct (IHb _ _ _ _ Hg' E) as [Hr Hg2].
        apply IHl; [exact Hg2|]. simpl. rewrite Hq, Hr. reflexivity.
  - intros lhs lexer bp t lexer' Hg Hlhs. simpl.
    destruct (next_good lexer Hg) as [Hq Hg']. rewrite <- peek_next in Hq.
    destruct (type (peek lexer)).
    + apply IHl; assumption.
    + destruct (_ >=? _).
      { apply IHl; [exact Hg'|]. simpl. rewrite Hq, Hlhs. reflexivity. }
      destruct (infix_binding_power _) as [l_bp r_bp].
      destruct (l_bp <? bp); [intros [= <- <-]; auto|].
      destruct (Ascii.eqb _ _).
      * destruct (expr_bp fuel _ 0) as [[mhs lexer2]| |] eqn:E1;
          try discriminate. simpl.
        destruct (IHb _ _ _ _ Hg' E1) as [Hm Hg2].
        destruct (expr_bp fuel lexer2 r_bp) as [[rhs lexer3]| |] eqn:E2;
          try discriminate. simpl.
        destruct (IHb _ _ _ _ Hg2 E2) as [Hr Hg3].
        apply IHl; [exact Hg3|]. simpl. rewrite Hq, Hlhs, Hm, Hr. reflexivity.
      * destruct (expr_bp fuel _ r_bp) as [[rhs lexer2]| |] eqn:E1;
          try discriminate. simpl.
        destruct (IHb _ _ _ _ Hg' E1) as [Hr Hg2].
        apply IHl; [exact Hg2|]. simpl. rewrite Hq, Hlhs, Hr. reflexivity.
    + intros [= <- <-]; auto.
Qed.
End ParsedHeads.

Lemma forallb_rev {A} (f : A -> bool) l : forallb f (rev l) = forallb f l.
Proof.
  induction l as [|x l IH]; simpl; [reflexivity|].
  rewrite forallb_app, IH. simpl. rewrite andb_true_r. apply andb_comm.
Qed.

(** Every head of a parsed tree is the text of a token. *)
Lemma parsed_heads_safe input t :
  expr_returns input t -> all_heads head_is_safe t = true.
Proof.
  intros [fuel H]. unfold expr in H.
  destruct (expr_bp fuel (Lexer_new input) 0) as [[t' lexer']| |] eqn:E;
    try discriminate.
  injection H as ->.
  refine (proj1 (proj1 (expr_bp_heads head_is_safe eq_refl fuel) _ _ _ _ _ E)).
  rewrite Lexer_new_tokens. unfold tokens_pass. cbn [tokens].
  rewrite forallb_rev, forallb_app.
  rewrite (tokenizes_safe _ _ (lex_loop_tokenizes input)). reflexivity.
Qed.

Lemma safe_heads_rendering t :
  all_heads head_is_safe t = true -> parens_join_digits (to_string t) = false.
Proof.
  induction t as [h r IH] using Sexp_rect'. simpl all_heads.
  intros H. apply andb_prop in H as [Hh Hr].
  rewrite to_string_node.
  induction IH as [|s r Hs _ IHr]; simpl in *.
  - unfold head_is_safe in Hh. apply negb_true_iff in Hh. exact Hh.
  - apply andb_prop in Hr as [Hs' Hr].
    unfold parens_join_digits. rewrite parens_join_digits_blank.
    fold (parens_join_digits (to_string s)). rewrite (Hs Hs').
    exact (IHr Hr).
Qed.

(** What [main] hands to [eval] has no parenthesis between digits. *)
Lemma rpn_rendering_safe input s :
  rpn_returns input s -> parens_join_digits s = false.
Proof.
  intros [fuel H]. unfold rpn in H.
  destruct (expr fuel input) as [t| |] eqn:E; try discriminate.
  injection H as <-. apply safe_heads_rendering.
  apply (parsed_heads_safe input). exists fuel. exact E.
Qed.

(** Deleting parentheses and cutting at the first NUL commute, and the
    cut text has no parenthesis between digits where the whole has none. *)
Lemma c_str_strip_parens s : c_str (strip_parens s) = strip_parens (c_str s).
Proof.
  induction s as [|c s IH]; simpl; [reflexivity|].
  destruct (is_paren c) eqn:Ep.
  - replace (Ascii.eqb c NUL) with false
      by (symmetry; apply Ascii.eqb_neq; intros ->; discriminate Ep).
    simpl. rewrite Ep. exact IH.
  - simpl. destruct (Ascii.eqb c NUL); [reflexivity|].
    simpl. rewrite Ep, IH. reflexivity.
Qed.

Lemma parens_join_digits_c_str s : forall st,
  parens_join_digits_from st s = false ->
  parens_join_digits_from st (c_str s) = false.
Proof.
  induction s as [|c s IH]; intros st H; simpl in *; [reflexivity|].
  destruct (Ascii.eqb c NUL); [reflexivity|]. simpl.
  destruct (isdigit c).
  - destruct st; auto.
  - destruct (is_paren c); [destruct st|]; auto.
Qed.

(** ["1(2"] pushes 1 and then 2; with the parenthesis deleted it is the
    single number 12. *)
Lemma deleting_parens_merges_numbers :
  strip_parens "1(2" = "12" /\
  compile_rpn (-128) "1(2" =
    Code [jit_getarg JIT_R2;
          jit_stxi_i (-128) JIT_R0; jit_movi JIT_R0 1;
          jit_stxi_i (-124) JIT_R0; jit_movi JIT_R0 2;
          jit_retr JIT_R0] /\
  compile_rpn (-128) (strip_parens "1(2") =
    Code [jit_getarg JIT_R2;
          jit_stxi_i (-128) JIT_R0; jit_movi JIT_R0 12;
          jit_retr JIT_R0] /\
  compile_rpn (-128) "1(2" <> compile_rpn (-128) (strip_parens "1(2") /\
  eval_call Word64 (-128) "1(2" (entry 0 0 0 0 (fun _ => 0))
    <> eval_call Word64 (-128) (strip_parens "1(2")
         (entry 0 0 0 0 (fun _ => 0)).
Proof. repeat split; try reflexivity; discriminate. Qed.

(** C10, as the code has it.  No instruction is emitted for ['('] and
    [')']: unless a parenthesis stands between two digits with nothing
    but parentheses around it, where deleting it would join two numbers
    into one, the text and the text with every parenthesis deleted
    compile to the same instructions and the calls give the same
    result.  The renderings the parser hands to [eval] are such texts. *)
Theorem parentheses_emit_nothing
  (stack_base : Z) (s : string) (w : jit_word) (m : machine) :
  parens_join_digits s = false \/ (exists input, rpn_returns input s) ->
  compile_rpn stack_base s = compile_rpn stack_base (strip_parens s) /\
  eval_call w stack_base s m = eval_call w stack_base (strip_parens s) m.
Proof.
  intros H.
  assert (Hs : parens_join_digits s = false)
    by (destruct H as [H | [input H]];
        [exact H | exact (rpn_rendering_safe _ _ H)]).
  assert (E : compile_rpn stack_base s
              = compile_rpn stack_base (strip_parens s))
    by (unfold compile_rpn; rewrite <- compile_loop_strip_parens by exact Hs;
        reflexivity).
  split; [exact E|]. unfold eval_call, eval, compile_rpn.
  rewrite c_str_strip_parens, <- compile_loop_strip_parens
    by (apply parens_join_digits_c_str; exact Hs).
  reflexivity.
Qed.

Lemma parentheses_emit_nothing_witness :
  compile_rpn (-128) "3 4 ) 5 * +"
    = compile_rpn (-128) (strip_parens "3 4 ) 5 * +") /\
  eval_call Word64 (-128) "3 4 ) 5 * +" (entry 0 0 0 0 (fun _ => 0))
    = eval_call Word64 (-128) (strip_parens "3 4 ) 5 * +")
        (entry 0 0 0 0 (fun _ => 0)).
Proof.
  apply (parentheses_emit_nothing (-128) "3 4 ) 5 * +" Word64).
  right. exists "(3 + 4) * 5". exists 10%nat. reflexivity.
Defined.

(** * Further properties *)

(** ** The tokenizer: nothing but whitespace is dropped *)

Lemma remove_spaces_run run s :
  all_digits run = true ->
  remove_spaces (run ++ s) = (run ++ remove_spaces s)%string.
Proof.
  induction run as [|c run IH]; simpl; [reflexivity|].
  intros H. apply andb_prop in H as [Hc Hrun].
  rewrite (isdigit_not_space _ Hc), IH by exact Hrun. reflexivity.
Qed.

Lemma tokenizes_concat s ts :
  tokenizes s ts ->
  concat_values ts = remove_spaces s /\
  (length ts <= String.length (remove_spaces s))%nat.
Proof.
  induction 1 as [ | c s ts Hc _ [IH1 IH2]
                   | run s ts Hne Hrun _ _ [IH1 IH2]
                   | c s ts Hsp _ _ _ [IH1 IH2]
                   | c s ts Hsp _ _ [IH1 IH2] ]; simpl.
  - auto.
  - rewrite Hc. auto.
  - rewrite remove_spaces_run, IH1 by exact Hrun. split; [reflexivity|].
    rewrite append_length. destruct run; [congruence | simpl; lia].
  - rewrite Hsp, IH1. simpl. split; [reflexivity | lia].
  - rewrite Hsp, IH1. simpl. split; [reflexivity | lia].
Qed.

Lemma concat_values_app ts1 ts2 :
  concat_values (ts1 ++ ts2) = (concat_values ts1 ++ concat_values ts2)%string.
Proof.
  induction ts1 as [|t ts1 IH]; simpl; [reflexivity|].
  rewrite IH, append_assoc. reflexivity.
Qed.

(** X1.  The texts of the tokens, in the order the cursor hands them
    out, spell the input with its whitespace deleted: no character is
    lost, changed or invented, and there is at most one token per
    character that is not whitespace, plus the end marker. *)
Theorem lexer_keeps_every_character (input : string) :
  concat_values (rev (tokens (Lexer_new input))) = remove_spaces input /\
  (length (tokens (Lexer_new input))
   <= S (String.length (remove_spaces input)))%nat.
Proof.
  destruct (tokenizes_concat _ _ (lex_loop_tokenizes input)) as [E L].
  rewrite Lexer_new_tokens. cbn [tokens]. rewrite rev_involutive.
  rewrite concat_values_app, E. simpl. rewrite append_nil_r.
  split; [reflexivity|].
  rewrite length_rev, length_app. simpl. lia.
Qed.

Lemma tokenizes_wf s ts : tokenizes s ts -> forallb token_wf ts = true.
Proof.
  induction 1 as [ | | run s ts Hne Hrun _ _ IH
                   | c s ts Hsp Hdig Hal _ IH
                   | c s ts Hsp Hal _ IH ]; simpl; auto.
  - rewrite IH, andb_true_r. unfold token_wf. simpl.
    destruct run as [|c [|d run]]; [congruence | | exact Hrun].
    simpl in Hrun. rewrite andb_true_r in Hrun.
    simpl. exact (isdigit_alnum _ Hrun).
  - rewrite IH, andb_true_r. unfold token_wf. simpl. exact Hal.
  - rewrite IH, andb_true_r. unfold token_wf. simpl.
    rewrite Hsp, Hal. reflexivity.
Qed.

Lemma lexer_tokens_well_formed_aux input :
  forallb token_wf (tokens (Lexer_new input)) = true.
Proof.
  rewrite Lexer_new_tokens. cbn [tokens].
  rewrite forallb_rev, forallb_app.
  rewrite (tokenizes_wf _ _ (lex_loop_tokenizes input)). reflexivity.
Qed.

(** X2.  Every token the constructor stores is well formed: a leaf is a
    run of digits or a single alphanumeric character, an operator is a
    single character that is neither whitespace nor alphanumeric, and
    the end marker has no text. *)
Theorem lexer_tokens_well_formed (input : string) :
  forallb token_wf (tokens (Lexer_new input)) = true.
Proof. exact (lexer_tokens_well_formed_aux input). Qed.

(** ** The parser: input without an expression *)

(** X3.  An empty input, or one of whitespace only, makes [expr] throw
    "Unexpected token": the first token read is the end marker.  No tree
    is returned. *)
Theorem blank_input_throws (ws : string) :
  all_spaces ws = true ->
  expr 1 ws = Throws "Unexpected token" /\
  forall s, ~ expr_returns ws s.
Proof.
  intros Hws.
  assert (E : expr 1 ws = Throws "Unexpected token").
  { unfold expr. rewrite Lexer_new_tokens.
    rewrite <- (append_nil_r ws), lex_loop_spaces, lex_loop_nil by exact Hws.
    reflexivity. }
  split; [exact E|]. intros s [fuel Hs].
  assert (Returns s = Throws "Unexpected token") as X
    by (eapply expr_run_unique; eauto; discriminate).
  discriminate X.
Qed.

Lemma blank_input_throws_witness :
  expr 1 "  " = Throws "Unexpected token" /\
  forall s, ~ expr_returns "  " s.
Proof. apply (blank_input_throws "  "). reflexivity. Defined.

(** ** The parser: two leaves at the start *)

(** X4.  Whenever the first two tokens of the input are leaves, [expr]
    never comes back: the loop of [expr_bp] peeks the second leaf, takes
    no branch, and starts over. *)
Theorem leading_leaves_diverge (input : string) (a b : Token) :
  fst (drain 2 (Lexer_new input)) = [a; b] ->
  type a = Atom -> type b = Atom ->
  expr_diverges input.
Proof.
  intros Hd Ha Hb fuel. unfold expr.
  rewrite Lexer_new_tokens in *. rewrite drain_rev in Hd. cbn [fst] in Hd.
  destruct (lex_loop input []) as [|a' [|b' more]]; simpl in Hd.
  - injection Hd as <- _. discriminate Ha.
  - injection Hd as _ <-. discriminate Hb.
  - injection Hd as -> ->. simpl rev.
    rewrite <- !app_assoc. cbn [app].
    rewrite expr_bp_adjacent_atoms; [reflexivity | exact Ha | exact Hb].
Qed.

Lemma leading_leaves_diverge_witness : expr_diverges "12 ab + 1".
Proof.
  apply (leading_leaves_diverge "12 ab + 1" (mkToken Atom "12")
           (mkToken Atom "a")); reflexivity.
Defined.

(** ** The parser: tokens in, nodes out *)

Lemma next_inv lexer :
  type (fst (next lexer)) <> Eof ->
  tokens lexer = tokens (snd (next lexer)) ++ [fst (next lexer)].
Proof.
  destruct lexer as [ts].
  destruct ts as [|t ts _] using rev_ind; [simpl; congruence|].
  rewrite next_snoc. reflexivity.
Qed.

Lemma app_nonempty_tail {A} (l : list A) x : l ++ [x] <> [].
Proof. destruct l; discriminate. Qed.

Lemma occurrences_app v l1 l2 :
  occurrences v (l1 ++ l2) = (occurrences v l1 + occurrences v l2)%nat.
Proof. apply count_occ_app. Qed.

Lemma occurrences_one v x :
  occurrences v [x] = if String.eqb v x then 1%nat else 0%nat.
Proof.
  unfold occurrences. destruct (String.eqb v x) eqn:E.
  - apply String.eqb_eq in E. subst x. rewrite count_occ_cons_eq; reflexivity.
  - apply String.eqb_neq in E.
    rewrite count_occ_cons_neq by congruence. reflexivity.
Qed.

Lemma occurrences_nil v : occurrences v [] = 0%nat.
Proof. reflexivity. Qed.

Lemma postfix_node h r :
  postfix (mkS h r) = flat_map postfix r ++ [h].
Proof. reflexivity. Qed.

(** The tokens a run passes, and how many of them are dropped: the
    opening parentheses that start a group. *)
Lemma expr_bp_consumed fuel :
  (forall lexer bp t lexer',
     expr_bp fuel lexer bp = Returns (t, lexer') ->
     exists consumed dropped,
       consumed <> [] /\ tokens lexer = tokens lexer' ++ consumed /\
       forall v,
         occurrences v (map value consumed) =
         (occurrences v (postfix t)
          + if String.eqb v "(" then dropped else 0)%nat) /\
  (forall lhs lexer bp t lexer',
     expr_loop fuel lhs lexer bp = Returns (t, lexer') ->
     exists consumed dropped,
       tokens lexer = tokens lexer' ++ consumed /\
       forall v,
         (occurrences v (postfix lhs) + occurrences v (map value consumed)
          = occurrences v (postfix t)
            + if String.eqb v "(" then dropped else 0)%nat).
Proof.
  induction fuel as [|fuel [IHb IHl]]; [split; intros; discriminate|].
  split.
  - intros lexer bp t lexer'. simpl.
    pose proof (next_inv lexer) as Hnext.
    destruct (next lexer) as [token lexer1]. cbn [fst snd] in Hnext.
    destruct (type token) eqn:Ety; [| |discriminate];
      specialize (Hnext ltac:(congruence)).
    + intros H. destruct (IHl _ _ _ _ _ H) as (c & k & Hc & Hocc).
      exists (c ++ [token]), k. split; [apply app_nonempty_tail|].
      split; [rewrite Hnext, Hc, app_assoc; reflexivity|].
      intros v. specialize (Hocc v). rewrite postfix_node in Hocc.
      cbn [flat_map app] in Hocc.
      rewrite map_app, occurrences_app. cbn [map]. lia.
    + destruct (String.eqb (value token) "(") eqn:Eopen.
      * apply String.eqb_eq in Eopen.
        destruct (expr_bp fuel lexer1 0) as [[lhs lexer2]| |] eqn:E1;
          try discriminate. simpl. intros H.
        destruct (IHb _ _ _ _ E1) as (c1 & k1 & _ & Hc1 & Hocc1).
        destruct (IHl _ _ _ _ _ H) as (c2 & k2 & Hc2 & Hocc2).
        exists (c2 ++ c1 ++ [token]), (k2 + k1 + 1)%nat.
        split; [rewrite app_assoc; apply app_nonempty_tail|].
        split; [rewrite Hnext, Hc1, Hc2, <- !app_assoc; reflexivity|].
        intros v. specialize (Hocc1 v). specialize (Hocc2 v).
        rewrite !map_app, !occurrences_app. cbn [map]. rewrite Eopen.
        rewrite occurrences_one.
        destruct (String.eqb v "("); lia.
      * destruct (expr_bp fuel lexer1 _) as [[rhs lexer2]| |] eqn:E1;
          try discriminate. simpl. intros H.
        destruct (IHb _ _ _ _ E1) as (c1 & k1 & _ & Hc1 & Hocc1).
        destruct (IHl _ _ _ _ _ H) as (c2 & k2 & Hc2 & Hocc2).
        exists (c2 ++ c1 ++ [token]), (k2 + k1)%nat.
        split; [rewrite app_assoc; apply app_nonempty_tail|].
        split; [rewrite Hnext, Hc1, Hc2, <- !app_assoc; reflexivity|].
        intros v. specialize (Hocc1 v). specialize (Hocc2 v).
        rewrite postfix_node in Hocc2. cbn [flat_map] in Hocc2.
        rewrite app_nil_r, occurrences_app in Hocc2.
        rewrite !map_app, !occurrences_app. cbn [map].
        destruct (String.eqb v "("); lia.
  - intros lhs lexer bp t lexer'. simpl.
    pose proof (next_inv lexer) as Hnext. rewrite <- peek_next in Hnext.
    destruct (type (peek lexer)) eqn:Ety.
    + intros H. exact (IHl _ _ _ _ _ H).
    + specialize (Hnext ltac:(congruence)).
      destruct (_ >=? _).
      { intros H. destruct (IHl _ _ _ _ _ H) as (c & k & Hc & Hocc).
        exists (c ++ [peek lexer]), k.
        split; [rewrite Hnext, Hc, app_assoc; reflexivity|].
        intros v. specialize (Hocc v).
        rewrite postfix_node in Hocc. cbn [flat_map] in Hocc.
        rewrite app_nil_r, occurrences_app in Hocc.
        rewrite !map_app, !occurrences_app. cbn [map]. lia. }
      destruct (infix_binding_power _) as [l_bp r_bp].
      destruct (l_bp <? bp).
      { intros [= <- <-]. exists [], 0%nat. rewrite app_nil_r.
        split; [reflexivity|]. intros v. cbn [map].
        rewrite occurrences_nil. destruct (String.eqb v "("); lia. }
      destruct (Ascii.eqb _ _).
      * destruct (expr_bp fuel _ 0) as [[mhs lexer2]| |] eqn:E1;
          try discriminate. simpl.
        destruct (expr_bp fuel lexer2 r_bp) as [[rhs lexer3]| |] eqn:E2;
          try discriminate. simpl. intros H.
        destruct (IHb _ _ _ _ E1) as (c1 & k1 & _ & Hc1 & Hocc1).
        destruct (IHb _ _ _ _ E2) as (c2 & k2 & _ & Hc2 & Hocc2).
        destruct (IHl _ _ _ _ _ H) as (c3 & k3 & Hc3 & Hocc3).
        exists (c3 ++ c2 ++ c1 ++ [peek lexer]), (k3 + k2 + k1)%nat.
        split; [rewrite Hnext, Hc1, Hc2, Hc3, <- !app_assoc; reflexivity|].
        intros v. specialize (Hocc1 v). specialize (Hocc2 v).
        specialize (Hocc3 v).
        rewrite postfix_node in Hocc3. cbn [flat_map] in Hocc3.
        rewrite app_nil_r, !occurrences_app in Hocc3.
        rewrite !map_app, !occurrences_app. cbn [map].
        destruct (String.eqb v "("); lia.
      * destruct (expr_bp fuel _ r_bp) as [[rhs lexer2]| |] eqn:E1;
          try discriminate. simpl. intros H.
        destruct (IHb _ _ _ _ E1) as (c1 & k1 & _ & Hc1 & Hocc1).
        destruct (IHl _ _ _ _ _ H) as (c2 & k2 & Hc2 & Hocc2).
        exists (c2 ++ c1 ++ [peek lexer]), (k2 + k1)%nat.
        split; [rewrite Hnext, Hc1, Hc2, <- !app_assoc; reflexivity|].
        intros v. specialize (Hocc1 v). specialize (Hocc2 v).
        rewrite postfix_node in Hocc2. cbn [flat_map] in Hocc2.
        rewrite app_nil_r, !occurrences_app in Hocc2.
        rewrite !map_app, !occurrences_app. cbn [map].
        destruct (String.eqb v "("); lia.
    + intros [= <- <-]. exists [], 0%nat. rewrite app_nil_r.
      split; [reflexivity|]. intros v. cbn [map].
      rewrite occurrences_nil. destruct (String.eqb v "("); lia.
Qed.



(** ** The parser: shapes of the trees it returns *)

Lemma next_forallb (p : Token -> bool) lexer :
  p EofToken = true -> forallb p (tokens lexer) = true ->
  p (fst (next lexer)) = true /\
  forallb p (tokens (snd (next lexer))) = true.
Proof.
  intros Hend. destruct lexer as [ts].
  destruct ts as [|t ts _] using rev_ind; [simpl; auto|].
  rewrite next_snoc. cbn [tokens fst snd]. rewrite forallb_app. simpl.
  intros H. apply andb_prop in H as [H1 H2].
  apply andb_prop in H2 as [H2 _]. auto.
Qed.

Lemma expr_bp_shape fuel :
  (forall lexer bp t lexer',
     forallb token_wf (tokens lexer) = true ->
     expr_bp fuel lexer bp = Returns (t, lexer') ->
     parsed_shape t = true /\ forallb token_wf (tokens lexer') = true) /\
  (forall lhs lexer bp t lexer',
     forallb token_wf (tokens lexer) = true -> parsed_shape lhs = true ->
     expr_loop fuel lhs lexer bp = Returns (t, lexer') ->
     parsed_shape t = true /\ forallb token_wf (tokens lexer') = true).
Proof.
  induction fuel as [|fuel [IHb IHl]]; [split; intros; discriminate|].
  split.
  - intros lexer bp t lexer' Hg. simpl.
    destruct (next_forallb token_wf lexer eq_refl Hg) as [Hq Hg'].
    destruct (next lexer) as [token lexer1]. cbn [fst snd] in Hq, Hg'.
    unfold token_wf in Hq.
    destruct (type token); [| |discriminate].
    + apply IHl; [exact Hg'|]. simpl. rewrite Hq. reflexivity.
    + destruct (String.eqb _ _).
      * destruct (expr_bp fuel lexer1 0) as [[lhs lexer2]| |] eqn:E;
          try discriminate. simpl.
        destruct (IHb _ _ _ _ Hg' E). apply IHl; assumption.
      * destruct (expr_bp fuel lexer1 _) as [[rhs lexer2]| |] eqn:E;
          try discriminate. simpl.
        destruct (IHb _ _ _ _ Hg' E) as [Hr Hg2].
        apply IHl; [exact Hg2|]. simpl. rewrite Hq, Hr. reflexivity.
  - intros lhs lexer bp t lexer' Hg Hlhs. simpl.
    destruct (next_forallb token_wf lexer eq_refl Hg) as [Hq Hg'].
    rewrite <- peek_next in Hq. unfold token_wf in Hq.
    destruct (type (peek lexer)).
    + apply IHl; assumption.
    + destruct (_ >=? _).
      { apply IHl; [exact Hg'|]. simpl. rewrite Hq, Hlhs. reflexivity. }
      destruct (infix_binding_power _) as [l_bp r_bp].
      destruct (l_bp <? bp); [intros [= <- <-]; auto|].
      destruct (Ascii.eqb _ _) eqn:Eq.
      * destruct (expr_bp fuel _ 0) as [[mhs lexer2]| |] eqn:E1;
          try discriminate. simpl.
        destruct (IHb _ _ _ _ Hg' E1) as [Hm Hg2].
        destruct (expr_bp fuel lexer2 r_bp) as [[rhs lexer3]| |] eqn:E2;
          try discriminate. simpl.
        destruct (IHb _ _ _ _ Hg2 E2) as [Hr Hg3].
        apply IHl; [exact Hg3|]. simpl.
        rewrite Hq, Eq, Hlhs, Hm, Hr. reflexivity.
      * destruct (expr_bp fuel _ r_bp) as [[rhs lexer2]| |] eqn:E1;
          try discriminate. simpl.
        destruct (IHb _ _ _ _ Hg' E1) as [Hr Hg2].
        apply IHl; [exact Hg2|]. simpl. rewrite Hq, Hlhs, Hr. reflexivity.
    + intros [= <- <-]; auto.
Qed.

(** X6.  Every tree [expr] returns is well shaped: its leaves carry the
    text of a leaf token (digits, or one alphanumeric character), every
    other node carries a single operator character and has one, two or
    three children, and only a node headed by ['?'] has three. *)
Theorem parsed_trees_are_well_shaped (input : string) (t : Sexp) :
  expr_returns input t -> parsed_shape t = true.
Proof.
  intros [fuel H]. unfold expr in H.
  destruct (expr_bp fuel (Lexer_new input) 0) as [[t' lexer']| |] eqn:E;
    try discriminate.
  injection H as ->.
  exact (proj1 (proj1 (expr_bp_shape fuel) _ _ _ _
                  (lexer_tokens_well_formed_aux input) E)).
Qed.

Lemma parsed_trees_are_well_shaped_witness :
  parsed_shape (mkS "?" [mkS "a" []; mkS "b" []; mkS ":" [mkS "c" []]]) = true.
Proof.
  apply (parsed_trees_are_well_shaped "a ? b : c"). exists 8%nat. reflexivity.
Defined.

(** ** The parser on sums of products *)

Lemma next_cursor_on t ts : next (cursor_on (t :: ts)) = (t, cursor_on ts).
Proof. unfold cursor_on. simpl rev. apply next_snoc. Qed.

Lemma peek_cursor_on ts : peek (cursor_on ts) = hd EofToken ts.
Proof. apply peek_rev. Qed.

Lemma expr_loop_stops fuel lhs ts bp :
  stops_loop bp ts = true ->
  expr_loop (S fuel) lhs (cursor_on ts) bp = Returns (lhs, cursor_on ts).
Proof.
  intros H. simpl. rewrite peek_cursor_on.
  destruct ts as [|t ts]; [reflexivity|]. simpl in H |- *.
  destruct (type t); [discriminate | | reflexivity].
  apply andb_prop in H as [H1 H2].
  rewrite Z.geb_leb. apply Z.ltb_lt in H1.
  replace (bp <=? _) with false by (symmetry; apply Z.leb_gt; exact H1).
  destruct (infix_binding_power _) as [l_bp r_bp]. simpl in H2.
  rewrite H2. reflexivity.
Qed.

(** A single operand, read at the right power of [*] and [/]. *)
Lemma expr_bp_operand fuel n ts :
  stops_loop 8 ts = true ->
  expr_bp (S (S fuel)) (cursor_on (mkToken Atom n :: ts)) 8
  = Returns (mkS n [], cursor_on ts).
Proof.
  intros H. cbn [expr_bp]. rewrite next_cursor_on. cbn [type value].
  apply expr_loop_stops. exact H.
Qed.

Lemma is_mul_op_powers c :
  is_mul_op c = true ->
  postfix_binding_power c = -1 /\ infix_binding_power c = (7, 8) /\
  Ascii.eqb c "?" = false.
Proof.
  unfold is_mul_op. intros H. apply orb_prop in H as [H | H];
    apply Ascii.eqb_eq in H; subst c; repeat split.
Qed.

Lemma is_add_op_powers c :
  is_add_op c = true ->
  postfix_binding_power c = -1 /\ infix_binding_power c = (5, 6) /\
  Ascii.eqb c "?" = false.
Proof.
  unfold is_add_op. intros H. apply orb_prop in H as [H | H];
    apply Ascii.eqb_eq in H; subst c; repeat split.
Qed.

Lemma stops_loop_factors bp fs ts :
  7 < bp ->
  forallb (fun f => is_mul_op (fst f)) fs = true ->
  stops_loop bp ts = true -> stops_loop bp (factor_tokens fs ++ ts) = true.
Proof.
  intros Hbp Hfs Hts. destruct fs as [|[c n] fs]; [exact Hts|].
  simpl in Hfs |- *. apply andb_prop in Hfs as [Hc _].
  destruct (is_mul_op_powers c Hc) as (-> & -> & _). simpl.
  apply andb_true_intro; split; apply Z.ltb_lt; lia.
Qed.

Lemma stops_loop_summands bp ss :
  5 < bp ->
  forallb (fun s => is_add_op (fst s)) ss = true ->
  stops_loop bp (summand_tokens ss ++ [EofToken]) = true.
Proof.
  intros Hbp Hss. destruct ss as [|[c t] ss]; [reflexivity|].
  simpl in Hss |- *. apply andb_prop in Hss as [Hc _].
  destruct (is_add_op_powers c Hc) as (-> & -> & _). simpl.
  apply andb_true_intro; split; apply Z.ltb_lt; lia.
Qed.

Lemma length_factor_tokens fs :
  length (factor_tokens fs) = (2 * length fs)%nat.
Proof. induction fs as [|f fs IH]; simpl in *; lia. Qed.

(** The loop over the operands of a term, at a minimum power that lets
    [*] and [/] in (0 at the top, 6 to the right of [+] and [-]). *)
Lemma expr_loop_factors bp fs : forall fuel lhs ts,
  0 <= bp <= 7 ->
  forallb (fun f => is_mul_op (fst f)) fs = true ->
  stops_loop 8 ts = true ->
  (length fs + 2 <= fuel)%nat ->
  expr_loop fuel lhs (cursor_on (factor_tokens fs ++ ts)) bp
  = expr_loop (fuel - length fs) (with_factors lhs fs) (cursor_on ts) bp.
Proof.
  induction fs as [|[c n] fs IH]; intros fuel lhs ts Hbp Hfs Hts Hfuel.
  { simpl. rewrite Nat.sub_0_r. reflexivity. }
  simpl in Hfs. apply andb_prop in Hfs as [Hc Hfs].
  destruct (is_mul_op_powers c Hc) as (Hpost & Hinf & Hq).
  destruct fuel as [|fuel]; [simpl in Hfuel; lia|].
  simpl length in *. cbn [factor_tokens flat_map app fst snd].
  fold (factor_tokens fs).
  cbn [expr_loop]. rewrite peek_cursor_on. cbn [hd type value string1 char0].
  rewrite Hpost, Hinf, Hq, next_cursor_on. cbn [snd].
  replace (-1 >=? bp) with false
    by (symmetry; rewrite Z.geb_leb; apply Z.leb_gt; lia).
  replace (7 <? bp) with false by (symmetry; apply Z.ltb_ge; lia).
  destruct fuel as [|[|fuel]]; try lia.
  rewrite expr_bp_operand
    by (apply stops_loop_factors; [lia | exact Hfs | exact Hts]).
  cbn [bind]. rewrite IH by (auto; lia). reflexivity.
Qed.

(** A whole term, read at the right power of [+] and [-]. *)
Lemma expr_bp_term t ts fuel :
  forallb (fun f => is_mul_op (fst f)) (snd t) = true ->
  stops_loop 6 ts = true -> stops_loop 8 ts = true ->
  (length (snd t) + 3 <= fuel)%nat ->
  expr_bp fuel (cursor_on (term_tokens t ++ ts)) 6
  = Returns (term_tree t, cursor_on ts).
Proof.
  intros Hfs H6 H8 Hfuel. destruct t as [n fs]. simpl in *.
  destruct fuel as [|fuel]; [lia|].
  unfold term_tokens. cbn [fst snd app expr_bp].
  rewrite next_cursor_on. cbn [type value].
  rewrite expr_loop_factors by (auto; lia).
  destruct (fuel - length fs)%nat as [|k] eqn:E; [lia|].
  apply expr_loop_stops. exact H6.
Qed.

(** The loop over the further terms of a sum, at the top. *)
Lemma expr_loop_summands ss : forall fuel lhs,
  forallb (fun s => is_add_op (fst s)
                    && forallb (fun f => is_mul_op (fst f)) (snd (snd s)))
          ss = true ->
  (length (summand_tokens ss) + 2 <= fuel)%nat ->
  expr_loop fuel lhs (cursor_on (summand_tokens ss ++ [EofToken])) 0
  = Returns (with_summands lhs ss, cursor_on [EofToken]).
Proof.
  induction ss as [|[c t] ss IH]; intros fuel lhs Hss Hfuel.
  { destruct fuel as [|fuel]; [simpl in Hfuel; lia|]. reflexivity. }
  simpl in Hss. apply andb_prop in Hss as [Hs Hss].
  apply andb_prop in Hs as [Hc Ht].
  destruct (is_add_op_powers c Hc) as (Hpost & Hinf & Hq).
  assert (Hadd : forallb (fun s : ascii * term => is_add_op (fst s)) ss = true).
  { clear - Hss. induction ss as [|s ss IH]; [reflexivity|].
    cbn [forallb] in *.
    apply andb_prop in Hss as [Hs Hss]. apply andb_prop in Hs as [Hs _].
    apply andb_true_intro; split; [exact Hs | exact (IH Hss)]. }
  cbn [summand_tokens flat_map fst snd] in *. fold (summand_tokens ss) in *.
  rewrite length_app in Hfuel. simpl length in Hfuel.
  rewrite length_factor_tokens in Hfuel.
  destruct fuel as [|fuel]; [lia|].
  rewrite <- !app_assoc. cbn [app expr_loop].
  rewrite peek_cursor_on. cbn [hd type value string1 char0].
  rewrite Hpost, Hinf, Hq, next_cursor_on. cbn [snd].
  change (-1 >=? 0) with false. change (5 <? 0) with false. cbv iota.
  rewrite expr_bp_term;
    [ | exact Ht
      | apply stops_loop_summands; [lia | exact Hadd]
      | apply stops_loop_summands; [lia | exact Hadd]
      | lia ].
  cbn [bind]. apply IH; [exact Hss | lia].
Qed.

Lemma expr_bp_sum e fuel :
  sum_ok (fun _ => true) e = true ->
  (length (sum_tokens e) + 3 <= fuel)%nat ->
  expr_bp fuel (cursor_on (sum_tokens e ++ [EofToken])) 0
  = Returns (sum_tree e, cursor_on [EofToken]).
Proof.
  destruct e as [[n fs] ss]. unfold sum_ok, term_ok, sum_tokens, sum_tree.
  cbn [fst snd]. intros Hok Hfuel.
  apply andb_prop in Hok as [Hfs Hss]. simpl in Hfs.
  assert (Hfs' : forallb (fun f : ascii * string => is_mul_op (fst f)) fs
                 = true).
  { clear - Hfs. induction fs as [|f fs IH]; [reflexivity|].
    cbn [forallb] in *. apply andb_prop in Hfs as [Hf Hfs].
    rewrite andb_true_r in Hf. rewrite Hf. exact (IH Hfs). }
  assert (Hss' : forallb (fun s : ascii * term =>
                   is_add_op (fst s)
                   && forallb (fun f => is_mul_op (fst f)) (snd (snd s)))
                   ss = true).
  { clear - Hss. induction ss as [|[c [m gs]] ss IH]; [reflexivity|].
    cbn [forallb fst snd] in *. apply andb_prop in Hss as [Hs Hss].
    apply andb_prop in Hs as [Hc Hgs]. simpl in Hgs.
    rewrite Hc, (IH Hss), andb_true_r. simpl.
    clear - Hgs. induction gs as [|g gs IH]; [reflexivity|].
    cbn [forallb] in *. apply andb_prop in Hgs as [Hg Hgs].
    rewrite andb_true_r in Hg. rewrite Hg. exact (IH Hgs). }
  assert (Hadd : forallb (fun s : ascii * term => is_add_op (fst s)) ss = true).
  { clear - Hss'. induction ss as [|s ss IH]; [reflexivity|].
    cbn [forallb] in *.
    apply andb_prop in Hss' as [Hs Hss]. apply andb_prop in Hs as [Hs _].
    apply andb_true_intro; split; [exact Hs | exact (IH Hss)]. }
  unfold term_tokens in *. cbn [fst snd] in *.
  rewrite <- app_assoc. simpl length in Hfuel.
  rewrite length_app, length_factor_tokens in Hfuel.
  destruct fuel as [|fuel]; [lia|].
  cbn [app expr_bp]. rewrite next_cursor_on. cbn [type value].
  unfold term_tree. cbn [fst snd].
  rewrite expr_loop_factors;
    [ | lia | exact Hfs'
      | apply stops_loop_summands; [lia | exact Hadd] | lia ].
  apply expr_loop_summands; [exact Hss' | lia].
Qed.

Lemma concat_blank_cons v vs :
  String.concat " " (v :: vs) =
  (v ++ match vs with [] => "" | _ => String " " (String.concat " " vs) end)
    %string.
Proof. destruct vs; simpl; [rewrite append_nil_r|]; reflexivity. Qed.

Lemma literal_inv n : literal n = true -> n <> "" /\ all_digits n = true.
Proof.
  unfold literal. intros H. apply andb_prop in H as [H1 H2].
  split; [intros ->; discriminate H1 | exact H2].
Qed.

(** Plainly spelt tokens come back from the tokenizer as they are. *)
Lemma lex_loop_plain toks : forall acc,
  forallb plain_token toks = true ->
  lex_loop (String.concat " " (map value toks)) acc = acc ++ toks.
Proof.
  induction toks as [|[ty v] toks IH]; intros acc H.
  { simpl. rewrite lex_loop_nil, app_nil_r. reflexivity. }
  cbn [forallb] in H. apply andb_prop in H as [Ht Htoks].
  assert (Tail : forall acc,
             lex_loop match map value toks with
                      | [] => ""
                      | _ => String " " (String.concat " " (map value toks))
                      end acc
             = acc ++ toks).
  { intros acc'. destruct toks as [|t' toks'].
    - simpl. rewrite lex_loop_nil, app_nil_r. reflexivity.
    - cbn [map]. rewrite lex_loop_space by reflexivity. apply IH. exact Htoks. }
  cbn [map value]. rewrite concat_blank_cons.
  unfold plain_token in Ht. cbn [type value] in Ht.
  destruct ty; [| |discriminate Ht].
  - destruct (literal_inv _ Ht) as [Hne Hd].
    rewrite lex_loop_number, Tail, <- app_assoc;
      [reflexivity | exact Hne | exact Hd |].
    destruct (map value toks); reflexivity.
  - destruct v as [|c [|d v]]; try discriminate Ht. simpl in Ht.
    apply andb_prop in Ht as [Hsp Hal].
    apply negb_true_iff in Hsp. apply negb_true_iff in Hal.
    cbn [String.append].
    rewrite lex_loop_operator, Tail, <- app_assoc by assumption. reflexivity.
Qed.

Lemma is_mul_op_text c : is_mul_op c = true -> op_text (string1 c) = true.
Proof.
  intros H. destruct (is_mul_op_powers c H) as (_ & Hinf & _).
  unfold is_mul_op in H. apply orb_prop in H as [H | H];
    apply Ascii.eqb_eq in H; subst c; reflexivity.
Qed.

Lemma is_add_op_text c : is_add_op c = true -> op_text (string1 c) = true.
Proof.
  intros H. unfold is_add_op in H. apply orb_prop in H as [H | H];
    apply Ascii.eqb_eq in H; subst c; reflexivity.
Qed.

Lemma term_tokens_plain t :
  term_ok literal t = true -> forallb plain_token (term_tokens t) = true.
Proof.
  destruct t as [n fs]. unfold term_ok, term_tokens. cbn [fst snd forallb].
  intros H. apply andb_prop in H as [Hn Hfs].
  apply andb_true_intro; split; [exact Hn|].
  induction fs as [|[c m] fs IH]; [reflexivity|].
  cbn [forallb fst snd factor_tokens flat_map app] in *.
  apply andb_prop in Hfs as [Hf Hfs]. apply andb_prop in Hf as [Hc Hm].
  unfold plain_token at 1 2. cbn [type value].
  rewrite (is_mul_op_text _ Hc), Hm. exact (IH Hfs).
Qed.

Lemma sum_tokens_plain e :
  sum_ok literal e = true -> forallb plain_token (sum_tokens e) = true.
Proof.
  destruct e as [t ss]. unfold sum_ok, sum_tokens. cbn [fst snd].
  intros H. apply andb_prop in H as [Ht Hss].
  rewrite forallb_app, (term_tokens_plain _ Ht). simpl.
  induction ss as [|[c t'] ss IH]; [reflexivity|].
  cbn [forallb fst snd summand_tokens flat_map] in *.
  apply andb_prop in Hss as [Hs Hss]. apply andb_prop in Hs as [Hc Ht'].
  rewrite forallb_app. cbn [forallb].
  unfold plain_token at 1. cbn [type value].
  rewrite (is_add_op_text _ Hc), (term_tokens_plain _ Ht'). exact (IH Hss).
Qed.

Lemma sum_ok_weaken (p q : string -> bool) e :
  (forall n, p n = true -> q n = true) ->
  sum_ok p e = true -> sum_ok q e = true.
Proof.
  intros Hpq.
  assert (Ht : forall t, term_ok p t = true -> term_ok q t = true).
  { intros [n fs]. unfold term_ok. cbn [fst snd]. intros H.
    apply andb_prop in H as [Hn Hfs]. rewrite (Hpq _ Hn). simpl.
    induction fs as [|f fs IH]; [reflexivity|]. cbn [forallb] in *.
    apply andb_prop in Hfs as [Hf Hfs]. apply andb_prop in Hf as [Hc Hm].
    rewrite Hc, (Hpq _ Hm), (IH Hfs). reflexivity. }
  destruct e as [t ss]. unfold sum_ok. cbn [fst snd]. intros H.
  apply andb_prop in H as [H1 Hss]. rewrite (Ht _ H1). simpl.
  induction ss as [|s ss IH]; [reflexivity|]. cbn [forallb] in *.
  apply andb_prop in Hss as [Hs Hss]. apply andb_prop in Hs as [Hc Hs].
  rewrite Hc, (Ht _ Hs), (IH Hss). reflexivity.
Qed.

Lemma expr_sum e :
  sum_ok literal e = true ->
  expr (length (sum_tokens e) + 3) (infix_text e) = Returns (sum_tree e).
Proof.
  intros Hok. unfold expr, infix_text. rewrite Lexer_new_tokens.
  rewrite lex_loop_plain, app_nil_l by (apply sum_tokens_plain; exact Hok).
  fold (cursor_on (sum_tokens e ++ [EofToken])).
  rewrite expr_bp_sum; [reflexivity | | lia].
  exact (sum_ok_weaken literal _ e (fun _ _ => eq_refl) Hok).
Qed.

(** X7.  On a sum of products of numbers written without parentheses,
    with one blank between tokens, the parser returns the tree of the
    usual reading: [*] and [/] bind tighter than [+] and [-], and
    operators of equal rank group to the left. *)
Theorem sums_parse_by_precedence (e : sum) :
  sum_ok literal e = true ->
  expr_returns (infix_text e) (sum_tree e).
Proof.
  intros Hok. exists (length (sum_tokens e) + 3)%nat. exact (expr_sum e Hok).
Qed.

Lemma sums_parse_by_precedence_witness :
  expr_returns "1 - 2 * 3 / 4 - 5"
    (mkS "-" [mkS "-" [mkS "1" [];
                       mkS "/" [mkS "*" [mkS "2" []; mkS "3" []]; mkS "4" []]];
              mkS "5" []]).
Proof.
  apply (sums_parse_by_precedence
           (("1", []),
            [("-"%char, ("2", [("*"%char, "3"); ("/"%char, "4")]));
             ("-"%char, ("5", []))])).
  reflexivity.
Defined.

(** ** From a sum to its value *)

Lemma to_string_postfix s : to_string s = String.concat " " (postfix s).
Proof.
  induction s as [h r IH] using Sexp_rect'.
  rewrite to_string_node. simpl postfix.
  induction IH as [|s r Hs Hr IHr]; [reflexivity|].
  simpl. rewrite IHr, Hs, <- app_assoc.
  rewrite (concat_blank_app (postfix s));
    [reflexivity | apply postfix_nonempty |].
  destruct (flat_map postfix r); discriminate.
Qed.

Lemma postfix_with_factors fs : forall lhs,
  postfix (with_factors lhs fs) =
  postfix lhs ++ flat_map (fun f => [snd f; string1 (fst f)]) fs.
Proof.
  induction fs as [|f fs IH]; intros lhs.
  - simpl. rewrite app_nil_r. reflexivity.
  - change (with_factors lhs (f :: fs))
      with (with_factors (mkS (string1 (fst f)) [lhs; mkS (snd f) []]) fs).
    rewrite IH, postfix_node. cbn [flat_map postfix app].
    rewrite <- !app_assoc. reflexivity.
Qed.

Lemma postfix_term_tree t :
  postfix (term_tree t) = map word_text (term_words t).
Proof.
  destruct t as [n fs]. unfold term_tree, term_words. cbn [fst snd].
  rewrite postfix_with_factors. simpl. f_equal.
  induction fs as [|f fs IH]; simpl; [reflexivity|]. rewrite IH. reflexivity.
Qed.

Lemma postfix_with_summands ss : forall lhs,
  postfix (with_summands lhs ss) =
  postfix lhs
  ++ flat_map (fun s => map word_text (term_words (snd s) ++ [Sym (fst s)])) ss.
Proof.
  induction ss as [|s ss IH]; intros lhs.
  - simpl. rewrite app_nil_r. reflexivity.
  - change (with_summands lhs (s :: ss))
      with (with_summands (mkS (string1 (fst s)) [lhs; term_tree (snd s)]) ss).
    rewrite IH, postfix_node. cbn [flat_map].
    rewrite postfix_term_tree, map_app, app_nil_r, <- !app_assoc.
    reflexivity.
Qed.

Lemma postfix_sum_tree e :
  postfix (sum_tree e) = map word_text (sum_words e).
Proof.
  destruct e as [t ss]. unfold sum_tree, sum_words. cbn [fst snd].
  rewrite postfix_with_summands, postfix_term_tree, map_app. f_equal.
  induction ss as [|s ss IH]; [reflexivity|].
  cbn [flat_map]. rewrite IH, (map_app _ (_ ++ _)). reflexivity.
Qed.

Lemma stack_machine_app p1 : forall p2 st,
  stack_machine (p1 ++ p2) st =
  match stack_machine p1 st with
  | Some st' => stack_machine p2 st'
  | None => None
  end.
Proof.
  induction p1 as [|i p1 IH]; intros p2 st; [reflexivity|].
  destruct i as [v | c]; simpl.
  - destruct (_ && _); [apply IH | reflexivity].
  - destruct st as [|r [|l st]]; try reflexivity.
    destruct (binop c l r) as [v|]; [|reflexivity].
    destruct (fits_int v); [apply IH | reflexivity].
Qed.

Lemma atoi_from_nonneg s : forall acc,
  all_digits s = true -> 0 <= acc -> 0 <= atoi_from acc s.
Proof.
  induction s as [|c s IH]; intros acc Hs Hacc; simpl in *; [exact Hacc|].
  apply andb_prop in Hs as [Hc Hs]. apply IH; [exact Hs|].
  unfold isdigit in Hc. apply andb_prop in Hc as [Hc _].
  apply Nat.leb_le in Hc. unfold digit_value. lia.
Qed.

Lemma numeral_fits x : numeral x = true -> fits_int (atoi x) = true.
Proof.
  intros H. apply numeral_inv in H as (_ & Hall & _ & Hmax).
  apply Z.ltb_ge in Hmax.
  pose proof (atoi_from_nonneg x 0 Hall ltac:(lia)) as Hpos.
  unfold fits_int. apply andb_true_intro; split; apply Z.leb_le;
    [unfold atoi; lia | exact Hmax].
Qed.

Lemma times_factors_none fs : times_factors None fs = None.
Proof. induction fs as [|f fs IH]; [reflexivity | exact IH]. Qed.

Lemma plus_summands_none ss : plus_summands None ss = None.
Proof. induction ss as [|s ss IH]; [reflexivity | exact IH]. Qed.

(** The machine on the words of further operands, with [a] on top. *)
Lemma stack_machine_factors fs : forall a st,
  forallb (fun f => is_mul_op (fst f) && numeral (snd f)) fs = true ->
  (length st + 2 <= 32)%nat ->
  stack_machine
    (map instruction_of (flat_map (fun f => [Num (snd f); Sym (fst f)]) fs))
    (a :: st)
  = option_map (fun v => v :: st) (times_factors (Some a) fs).
Proof.
  induction fs as [|[c m] fs IH]; intros a st Hfs Hst; [reflexivity|].
  cbn [forallb fst snd] in Hfs. apply andb_prop in Hfs as [Hf Hfs].
  apply andb_prop in Hf as [Hc Hm].
  cbn [flat_map map app instruction_of fst snd stack_machine].
  rewrite (numeral_fits _ Hm).
  replace (length (a :: st) <? 32)%nat with true
    by (symmetry; apply Nat.ltb_lt; simpl; lia).
  cbn [andb].
  change (times_factors (Some a) ((c, m) :: fs))
    with (times_factors (apply_checked c a (atoi m)) fs).
  unfold apply_checked.
  destruct (binop c a (atoi m)) as [v|];
    [|rewrite times_factors_none; reflexivity].
  destruct (fits_int v); [|rewrite times_factors_none; reflexivity].
  exact (IH v st Hfs Hst).
Qed.

Lemma stack_machine_term t st :
  term_ok numeral t = true -> (length st + 2 <= 32)%nat ->
  stack_machine (map instruction_of (term_words t)) st
  = option_map (fun v => v :: st) (term_value t).
Proof.
  destruct t as [n fs]. unfold term_ok, term_words, term_value.
  cbn [fst snd]. intros H Hst. apply andb_prop in H as [Hn Hfs].
  cbn [map instruction_of stack_machine]. rewrite (numeral_fits _ Hn).
  replace (length st <? 32)%nat with true
    by (symmetry; apply Nat.ltb_lt; lia).
  cbn [andb]. exact (stack_machine_factors fs _ st Hfs Hst).
Qed.

Lemma stack_machine_summands ss : forall a,
  forallb (fun s => is_add_op (fst s) && term_ok numeral (snd s)) ss = true ->
  stack_machine
    (map instruction_of
       (flat_map (fun s => term_words (snd s) ++ [Sym (fst s)]) ss))
    [a]
  = option_map (fun v => [v]) (plus_summands (Some a) ss).
Proof.
  induction ss as [|[c t] ss IH]; intros a Hss; [reflexivity|].
  cbn [forallb fst snd] in Hss. apply andb_prop in Hss as [Hs Hss].
  apply andb_prop in Hs as [Hc Ht].
  cbn [flat_map fst snd]. rewrite !map_app, <- app_assoc.
  rewrite stack_machine_app, stack_machine_term by (auto; simpl; lia).
  change (plus_summands (Some a) ((c, t) :: ss))
    with (plus_summands match term_value t with
                        | Some b => apply_checked c a b
                        | None => None
                        end ss).
  destruct (term_value t) as [b|]; cbn [option_map];
    [|rewrite plus_summands_none; reflexivity].
  cbn [map app instruction_of stack_machine]. unfold apply_checked.
  destruct (binop c a b) as [v|];
    [|rewrite plus_summands_none; reflexivity].
  destruct (fits_int v); [|rewrite plus_summands_none; reflexivity].
  exact (IH v Hss).
Qed.

Lemma stack_machine_sum e :
  sum_ok numeral e = true ->
  stack_machine (map instruction_of (sum_words e)) []
  = option_map (fun v => [v]) (sum_value e).
Proof.
  destruct e as [t ss]. unfold sum_ok, sum_words, sum_value. cbn [fst snd].
  intros H. apply andb_prop in H as [Ht Hss].
  rewrite map_app, stack_machine_app, stack_machine_term by (auto; simpl; lia).
  destruct (term_value t) as [a|]; cbn [option_map];
    [exact (stack_machine_summands ss a Hss)|].
  rewrite plus_summands_none. reflexivity.
Qed.

Lemma is_mul_op_arith c : is_mul_op c = true -> is_arith_op c = true.
Proof.
  unfold is_mul_op, is_arith_op. intros H.
  apply orb_prop in H as [-> | ->]; rewrite ?orb_true_r; reflexivity.
Qed.

Lemma is_add_op_arith c : is_add_op c = true -> is_arith_op c = true.
Proof.
  unfold is_add_op, is_arith_op. intros H.
  apply orb_prop in H as [-> | ->]; rewrite ?orb_true_r; reflexivity.
Qed.

Lemma term_words_ok t :
  term_ok numeral t = true -> forallb word_ok (term_words t) = true.
Proof.
  destruct t as [n fs]. unfold term_ok, term_words. cbn [fst snd forallb].
  intros H. apply andb_prop in H as [Hn Hfs]. cbn [word_ok]. rewrite Hn.
  simpl. induction fs as [|[c m] fs IH]; [reflexivity|].
  cbn [forallb fst snd flat_map app word_ok] in *.
  apply andb_prop in Hfs as [Hf Hfs]. apply andb_prop in Hf as [Hc Hm].
  rewrite Hm, (is_mul_op_arith _ Hc). exact (IH Hfs).
Qed.

Lemma sum_words_ok e :
  sum_ok numeral e = true -> forallb word_ok (sum_words e) = true.
Proof.
  destruct e as [t ss]. unfold sum_ok, sum_words. cbn [fst snd].
  intros H. apply andb_prop in H as [Ht Hss].
  rewrite forallb_app, (term_words_ok _ Ht). cbn [andb].
  induction ss as [|[c t'] ss IH]; [reflexivity|].
  cbn [forallb fst snd flat_map] in *.
  apply andb_prop in Hss as [Hs Hss]. apply andb_prop in Hs as [Hc Ht'].
  rewrite !forallb_app, (term_words_ok _ Ht'). cbn [forallb word_ok].
  rewrite (is_add_op_arith _ Hc). exact (IH Hss).
Qed.

(** The call of the code compiled from a postfix text of words. *)
Lemma eval_call_text w stack_base r0 r1 r2 a junk ws v below :
  forallb word_ok ws = true ->
  stack_machine (map instruction_of ws) [] = Some (v :: below) ->
  eval_call w stack_base (text ws) (entry r0 r1 r2 a junk) = Some (Value v).
Proof.
  intros Hok Hrun. unfold eval_call, eval, compile_rpn.
  rewrite c_str_text, compile_loop_text by exact Hok. f_equal.
  cbn [app jit_run].
  set (m0 := set_reg (entry r0 r1 r2 a junk) JIT_R2
                     (arg (entry r0 r1 r2 a junk))).
  assert (H0 : holds m0 []) by (repeat split).
  destruct (jit_run_emitted w stack_base ws [] m0 [jit_retr JIT_R0]
              (v :: below) Hok H0 Hrun) as (m' & Erun & Hm').
  replace (stack_base + sizeof_int * Z.of_nat (length (@nil Z)))
    with stack_base in Erun by (simpl; lia).
  rewrite Erun. cbn [jit_run get_reg].
  destruct Hm' as (_ & Hfits & Htop & _). rewrite Htop.
  simpl in Hfits. apply andb_prop in Hfits as [Fv _].
  rewrite (wrap_32_int _ Fv). reflexivity.
Qed.

Lemma numeral_literal n : numeral n = true -> literal n = true.
Proof.
  unfold numeral, literal. intros H.
  apply andb_prop in H as [H _]. apply andb_prop in H as [H _]. exact H.
Qed.

(** X8.  From text to number: for a sum of products without parentheses,
    written with one blank between tokens, whose operands and
    intermediate results fit an [int] and whose divisors are not zero,
    [expr] returns a tree, its rendering is the postfix text of the sum,
    and the code compiled from that rendering returns the value of the
    sum. *)
Theorem sums_evaluate_to_their_value
  (w : jit_word) (stack_base r0 r1 r2 a : Z) (junk : nat -> Z)
  (e : sum) (v : Z) :
  sum_ok numeral e = true -> sum_value e = Some v ->
  rpn_returns (infix_text e) (text (sum_words e)) /\
  eval_call w stack_base (text (sum_words e)) (entry r0 r1 r2 a junk)
  = Some (Value v).
Proof.
  intros Hok Hv. split.
  - exists (length (sum_tokens e) + 3)%nat. unfold rpn.
    rewrite expr_sum
      by (exact (sum_ok_weaken numeral literal e numeral_literal Hok)).
    cbn [bind]. rewrite to_string_postfix, postfix_sum_tree. reflexivity.
  - apply (eval_call_text _ _ _ _ _ _ _ _ v []);
      [exact (sum_words_ok e Hok)|].
    rewrite stack_machine_sum, Hv by exact Hok. reflexivity.
Qed.

Lemma sums_evaluate_to_their_value_witness :
  rpn_returns "7 - 2 * 3 / 4 - 5" "7 2 3 * 4 / - 5 -" /\
  eval_call Word64 (-128) "7 2 3 * 4 / - 5 -" (entry 0 0 0 0 (fun _ => 0))
  = Some (Value 1).
Proof.
  apply (sums_evaluate_to_their_value Word64 (-128) 0 0 0 0 (fun _ => 0)
           (("7", []),
            [("-"%char, ("2", [("*"%char, "3"); ("/"%char, "4")]));
             ("-"%char, ("5", []))]) 1); reflexivity.
Defined.

(** ** [main] *)

Lemma expr_quit_diverges fuel : expr fuel "quit" = OutOfFuel.
Proof.
  unfold expr.
  change (Lexer_new "quit")
    with (mkLexer ([EofToken; mkToken Atom "t"; mkToken Atom "i"]
                   ++ [mkToken Atom "u"; mkToken Atom "q"])).
  rewrite expr_bp_adjacent_atoms; reflexivity.
Qed.

(** X9.  [main] never reaches [return 0], whatever it reads: the loop is
    left only after a line ["quit"] has been parsed, compiled and run,
    and the parse of ["quit"] (four leaves in a row) does not return. *)
Theorem main_never_returns
  (fuel : nat) (w : jit_word) (stack_base : Z) (garbage : nat -> nat -> Z)
  (stdin : string) (status : Z) (printed : list (string * Z)) :
  main fuel w stack_base garbage stdin <> Exits status printed.
Proof.
  unfold main.
  generalize (mkIstream stdin false false) as cin.
  generalize (@nil (string * Z)) as out. generalize ""%string as line.
  generalize 0%nat as k.
  induction fuel as [|fuel IH]; intros k line out cin; [discriminate|].
  cbn [main_loop]. destruct (getline cin line) as [cin' line'].
  destruct (expr fuel line') as [result| |] eqn:E; try discriminate.
  destruct (eval _ _); try discriminate.
  destruct (jit_run _ _ _ _); try discriminate.
  destruct (String.eqb line' "quit") eqn:Eq; [|apply IH].
  apply String.eqb_eq in Eq. subst line'.
  rewrite expr_quit_diverges in E. discriminate E.
Qed.

Lemma read_line_found l rest :
  no_newline l = true ->
  read_line (l ++ String newline rest) = (l, rest, true).
Proof.
  induction l as [|c l IH]; simpl; [reflexivity|].
  intros H. apply andb_prop in H as [Hc Hl].
  apply negb_true_iff in Hc. rewrite Hc, (IH Hl). reflexivity.
Qed.

Lemma read_line_end l :
  no_newline l = true -> read_line l = (l, "", false).
Proof.
  induction l as [|c l IH]; simpl; [reflexivity|].
  intros H. apply andb_prop in H as [Hc Hl].
  apply negb_true_iff in Hc. rewrite Hc, (IH Hl). reflexivity.
Qed.

Lemma no_newline_app s1 s2 :
  no_newline (s1 ++ s2) = no_newline s1 && no_newline s2.
Proof.
  induction s1 as [|c s1 IH]; simpl; [reflexivity|].
  rewrite IH, andb_assoc. reflexivity.
Qed.

Lemma no_newline_digits n : all_digits n = true -> no_newline n = true.
Proof.
  induction n as [|c n IH]; simpl; [reflexivity|].
  intros H. apply andb_prop in H as [Hc Hn]. rewrite (IH Hn), andb_true_r.
  apply negb_true_iff. apply Ascii.eqb_neq. intros ->. discriminate Hc.
Qed.

Lemma no_newline_plain toks :
  forallb plain_token toks = true ->
  no_newline (String.concat " " (map value toks)) = true.
Proof.
  induction toks as [|[ty v] toks IH]; [reflexivity|].
  cbn [forallb map value]. intros H. apply andb_prop in H as [Ht Htoks].
  rewrite concat_blank_cons, no_newline_app.
  assert (Hv : no_newline v = true).
  { unfold plain_token in Ht. cbn [type value] in Ht.
    destruct ty; [| |discriminate Ht].
    - apply no_newline_digits. exact (proj2 (literal_inv _ Ht)).
    - destruct v as [|c [|d v]]; try discriminate Ht. simpl in Ht |- *.
      apply andb_prop in Ht as [Hsp _]. rewrite andb_true_r.
      apply negb_true_iff. apply Ascii.eqb_neq. intros ->.
      discriminate Hsp. }
  rewrite Hv. specialize (IH Htoks).
  destruct (map value toks); [reflexivity | exact IH].
Qed.

Lemma infix_text_no_newline e :
  sum_ok literal e = true -> no_newline (infix_text e) = true.
Proof. intros H. apply no_newline_plain, sum_tokens_plain, H. Qed.

Lemma infix_text_not_quit e :
  sum_ok literal e = true -> String.eqb (infix_text e) "quit" = false.
Proof.
  intros H. apply String.eqb_neq. intros E.
  destruct e as [[n fs] ss]. unfold sum_ok, term_ok in H. cbn [fst snd] in H.
  apply andb_prop in H as [H _]. apply andb_prop in H as [Hn _].
  destruct (literal_inv _ Hn) as [Hne Hd].
  unfold infix_text, sum_tokens, term_tokens in E.
  cbn [fst snd app map value] in E.
  rewrite concat_blank_cons in E.
  destruct n as [|c n]; [congruence|]. simpl in Hd, E.
  apply andb_prop in Hd as [Hc _]. injection E as -> _. discriminate Hc.
Qed.

(** One round of the loop on a line that holds a sum. *)
Lemma run_of_sum w stack_base g e v :
  sum_ok numeral e = true -> sum_value e = Some v ->
  exists code,
    eval stack_base (to_string (sum_tree e)) = Code code /\
    jit_run w stack_base code (entry_from g) = Value v.
Proof.
  intros Hok Hv.
  pose proof (eval_call_text w stack_base (g 0%nat) (g 1%nat) (g 2%nat)
                (g 3%nat) (fun i => g (4 + i)%nat) (sum_words e) v []
                (sum_words_ok e Hok)) as H.
  rewrite stack_machine_sum, Hv in H by exact Hok. specialize (H eq_refl).
  unfold eval_call in H. rewrite to_string_postfix, postfix_sum_tree.
  fold (text (sum_words e)).
  destruct (eval stack_base (text (sum_words e))) as [code| |];
    try discriminate H.
  exists code. split; [reflexivity|]. injection H as H. exact H.
Qed.

Lemma expr_sum_fuel e fuel :
  sum_ok literal e = true -> (length (sum_tokens e) + 3 <= fuel)%nat ->
  expr fuel (infix_text e) = Returns (sum_tree e).
Proof.
  intros Hok Hfuel.
  apply (expr_more_fuel (length (sum_tokens e) + 3));
    [exact (expr_sum e Hok) | discriminate | exact Hfuel].
Qed.

Lemma main_loop_lines w stack_base garbage es : forall vs fuel k line printed,
  forallb (sum_ok numeral) es = true ->
  map sum_value es = map Some vs ->
  (session_fuel es <= fuel)%nat ->
  main_loop fuel w stack_base garbage k
            (mkIstream (lines_of es) false false) line printed
  = Terminates "Unexpected token"
      (printed ++ combine (map (fun e => text (sum_words e)) es) vs).
Proof.
  induction es as [|e es IH]; intros vs fuel k line printed Hok Hvs Hfuel.
  - destruct vs; [|discriminate Hvs]. simpl in Hfuel.
    destruct fuel as [|[|fuel]]; try lia.
    simpl. rewrite app_nil_r. reflexivity.
  - destruct vs as [|v vs]; [discriminate Hvs|].
    cbn [map] in Hvs. injection Hvs as Hv Hvs.
    cbn [forallb] in Hok. apply andb_prop in Hok as [He Hes].
    cbn [session_fuel] in Hfuel.
    destruct fuel as [|fuel]; [lia|].
    pose proof (sum_ok_weaken numeral literal e numeral_literal He) as Hlit.
    cbn [main_loop lines_of fold_right]. fold (lines_of es).
    unfold getline. cbn [eofbit failbit orb unread].
    rewrite read_line_found by (apply infix_text_no_newline; exact Hlit).
    rewrite expr_sum_fuel by (auto; lia).
    destruct (run_of_sum w stack_base (garbage k) e v He Hv)
      as (code & -> & ->).
    rewrite (infix_text_not_quit e Hlit). cbn [negb].
    rewrite IH with (vs := vs) by (auto; lia).
    rewrite to_string_postfix, postfix_sum_tree. fold (text (sum_words e)).
    rewrite <- app_assoc. reflexivity.
Qed.

(** X10.  A session: when standard input holds one sum of products per
    line, written with one blank between tokens and within the range of
    X8, each line ended by a newline, [main] prints for every line
    the postfix rendering and the value of the sum, in order, and then,
    at the end of the input, reads an empty line and dies of the
    uncaught "Unexpected token". *)
Theorem main_prints_the_value_of_every_line
  (w : jit_word) (stack_base : Z) (garbage : nat -> nat -> Z)
  (es : list sum) (vs : list Z) (fuel : nat) :
  forallb (sum_ok numeral) es = true ->
  map sum_value es = map Some vs ->
  (session_fuel es <= fuel)%nat ->
  main fuel w stack_base garbage (lines_of es)
  = Terminates "Unexpected token"
      (combine (map (fun e => text (sum_words e)) es) vs).
Proof.
  intros Hok Hvs Hfuel. unfold main.
  rewrite (main_loop_lines w stack_base garbage es vs) by assumption.
  reflexivity.
Qed.

Lemma main_prints_the_value_of_every_line_witness :
  main 30 Word64 (-128) (fun _ _ => 0)
       (String.concat "" ["1 + 2 * 3"; String newline ""; "8 / 2 - 1";
                          String newline ""])
  = Terminates "Unexpected token" [("1 2 3 * +", 7); ("8 2 / 1 -", 3)].
Proof.
  apply (main_prints_the_value_of_every_line Word64 (-128) (fun _ _ => 0)
           [(("1", []), [("+"%char, ("2", [("*"%char, "3")]))]);
            (("8", [("/"%char, "2")]), [("-"%char, ("1", []))])]
           [7; 3] 30); [reflexivity | reflexivity | simpl; lia].
Defined.

Lemma expr_sum_or_out_of_fuel e fuel :
  sum_ok literal e = true ->
  expr fuel (infix_text e) = OutOfFuel \/
  expr fuel (infix_text e) = Returns (sum_tree e).
Proof.
  intros Hok. destruct (expr fuel (infix_text e)) as [t|what|] eqn:E; auto.
  - right. eapply expr_run_unique;
      [exact E | discriminate | exact (expr_sum e Hok) | discriminate].
  - exfalso.
    assert (Throws what = Returns (sum_tree e)) as X
      by (eapply expr_run_unique;
          [exact E | discriminate | exact (expr_sum e Hok) | discriminate]).
    discriminate X.
Qed.

Lemma main_loop_stale_line w stack_base garbage e v : forall fuel k fb n,
  sum_ok numeral e = true -> sum_value e = Some v ->
  exists m,
    main_loop fuel w stack_base garbage k
              (mkIstream "" true fb) (infix_text e)
              (repeat (text (sum_words e), v) n)
    = StillRunning (repeat (text (sum_words e), v) (n + m)) /\
    (fuel - (length (sum_tokens e) + 3) <= m)%nat.
Proof.
  intros fuel k fb n He Hv.
  pose proof (sum_ok_weaken numeral literal e numeral_literal He) as Hlit.
  revert k fb n. induction fuel as [|fuel IH]; intros k fb n.
  { exists 0%nat. rewrite Nat.add_0_r. split; [reflexivity | simpl; lia]. }
  cbn [main_loop]. unfold getline. cbn [eofbit failbit orb unread].
  destruct (Nat.le_gt_cases (length (sum_tokens e) + 3) fuel) as [Hle | Hgt].
  - rewrite expr_sum_fuel by assumption.
    destruct (run_of_sum w stack_base (garbage k) e v He Hv)
      as (code & -> & ->).
    rewrite (infix_text_not_quit e Hlit). cbn [negb].
    rewrite to_string_postfix, postfix_sum_tree. fold (text (sum_words e)).
    change (repeat (text (sum_words e), v) n ++ [(text (sum_words e), v)])
      with (repeat (text (sum_words e), v) n
            ++ repeat (text (sum_words e), v) 1).
    rewrite <- repeat_app.
    destruct (IH (S k) true (n + 1)%nat) as (m & -> & Hm).
    exists (1 + m)%nat. split; [f_equal; f_equal; lia | lia].
  - destruct (expr_sum_or_out_of_fuel e fuel Hlit) as [-> | ->].
    + exists 0%nat. rewrite Nat.add_0_r. split; [reflexivity | lia].
    + destruct (run_of_sum w stack_base (garbage k) e v He Hv)
        as (code & -> & ->).
      rewrite (infix_text_not_quit e Hlit). cbn [negb].
      rewrite to_string_postfix, postfix_sum_tree. fold (text (sum_words e)).
      change (repeat (text (sum_words e), v) n ++ [(text (sum_words e), v)])
        with (repeat (text (sum_words e), v) n
              ++ repeat (text (sum_words e), v) 1).
      rewrite <- repeat_app.
      destruct (IH (S k) true (n + 1)%nat) as (m & -> & Hm).
      exists (1 + m)%nat. split; [f_equal; f_equal; lia | lia].
Qed.

(** X11.  A last line without a newline is never left behind: once the
    stream has reached its end, [getline] fails and leaves [line] as it
    was.  When the whole input is one such line, a sum as in X8, [main]
    evaluates and prints the same sum again and again, without end. *)
Theorem main_repeats_an_unterminated_line
  (w : jit_word) (stack_base : Z) (garbage : nat -> nat -> Z)
  (e : sum) (v : Z) (fuel : nat) :
  sum_ok numeral e = true -> sum_value e = Some v ->
  exists n,
    main fuel w stack_base garbage (infix_text e)
    = StillRunning (repeat (text (sum_words e), v) n) /\
    (fuel - (length (sum_tokens e) + 4) <= n)%nat.
Proof.
  intros He Hv.
  pose proof (sum_ok_weaken numeral literal e numeral_literal He) as Hlit.
  unfold main. destruct fuel as [|fuel].
  { exists 0%nat. split; [reflexivity | simpl; lia]. }
  cbn [main_loop]. unfold getline. cbn [eofbit failbit orb unread].
  rewrite read_line_end by (apply infix_text_no_newline; exact Hlit).
  destruct (expr_sum_or_out_of_fuel e fuel Hlit) as [E | E]; rewrite E.
  - exists 0%nat. split; [reflexivity|].
    destruct (Nat.le_gt_cases (length (sum_tokens e) + 3) fuel) as [Hle | Hgt];
      [|lia].
    rewrite expr_sum_fuel in E by assumption. discriminate E.
  - destruct (run_of_sum w stack_base (garbage 0%nat) e v He Hv)
      as (code & -> & ->).
    rewrite (infix_text_not_quit e Hlit). cbn [negb app].
    rewrite to_string_postfix, postfix_sum_tree. fold (text (sum_words e)).
    destruct (main_loop_stale_line w stack_base garbage e v fuel 1%nat
                (String.eqb (infix_text e) "") 1%nat He Hv) as (m & Hm & Hb).
    cbn [repeat] in Hm. rewrite Hm.
    exists (1 + m)%nat. split; [reflexivity | lia].
Qed.

Lemma main_repeats_an_unterminated_line_witness :
  exists n,
    main 20 Word64 (-128) (fun _ _ => 0) "1 + 2"
    = StillRunning (repeat ("1 2 +", 3) n) /\ (20 - (3 + 4) <= n)%nat.
Proof.
  apply (main_repeats_an_unterminated_line Word64 (-128) (fun _ _ => 0)
           (("1", []), [("+"%char, ("2", []))]) 3 20); reflexivity.
Defined.

Lemma all_compilable_skip_digits s :
  all_compilable s = true -> all_compilable (skip_digits s) = true.
Proof.
  induction s as [|c s IH]; simpl; [auto|].
  intros H. apply andb_prop in H as [Hc Hs].
  destruct (isdigit c); [auto | simpl; rewrite Hc, Hs; reflexivity].
Qed.

Lemma skip_digits_all_compilable s :
  all_compilable (skip_digits s) = false -> all_compilable s = false.
Proof.
  intros H. destruct (all_compilable s) eqn:E; [|reflexivity].
  rewrite (all_compilable_skip_digits s E) in H. discriminate H.
Qed.

Lemma compile_loop_alphabet : forall n expr stack_ptr code,
  (String.length expr <= n)%nat ->
  match compile_loop expr stack_ptr code with
  | Code _ => all_compilable expr = true
  | Abort => all_compilable expr = false
  | Undefined => True
  end.
Proof.
  induction n as [|n IH]; intros expr stack_ptr code Hn.
  { destruct expr; [|simpl in Hn; lia].
    rewrite compile_loop_nil. reflexivity. }
  destruct expr as [|c rest]; [rewrite compile_loop_nil; reflexivity|].
  simpl in Hn. rewrite compile_loop_cons.
  cbn [all_compilable]. unfold compilable_char, is_arith_op, is_paren.
  destruct (isdigit c) eqn:Hd.
  - cbv zeta. destruct (32 <=? _)%nat; [exact I|].
    destruct (INT_MAX <? _); [exact I|].
    pose proof (skip_digits_length rest) as Hlen.
    match goal with
    | |- match compile_loop ?e ?sp ?cd with _ => _ end =>
        specialize (IH e sp cd ltac:(lia)); destruct (compile_loop e sp cd)
    end; cbn [orb andb].
    + destruct (all_compilable rest) eqn:E; [reflexivity|].
      exfalso. revert IH.
      destruct (all_compilable (skip_digits rest)) eqn:E'; [|discriminate].
      intros _.
      assert (X : forall s, all_compilable (skip_digits s) = true ->
                            all_compilable s = true).
      { clear. induction s as [|d s IHs]; simpl; [auto|].
        destruct (isdigit d) eqn:Hd; simpl.
        - intros H. unfold compilable_char. rewrite Hd. simpl. auto.
        - auto. }
      rewrite (X rest E') in E. discriminate E.
    + apply skip_digits_all_compilable, IH.
    + exact I.
  - cbn [orb].
    destruct (Ascii.eqb c "+"); [cbn [orb andb]; apply IH; lia|].
    destruct (Ascii.eqb c "-"); [cbn [orb andb]; apply IH; lia|].
    destruct (Ascii.eqb c "*"); [cbn [orb andb]; apply IH; lia|].
    destruct (Ascii.eqb c "/"); [cbn [orb andb]; apply IH; lia|].
    cbn [orb].
    destruct (Ascii.eqb c "(" || Ascii.eqb c ")" || Ascii.eqb c " ") eqn:E.
    + replace (Ascii.eqb c "(" || Ascii.eqb c ")" || Ascii.eqb c " ")
        with true. cbn [andb]. apply IH; lia.
    + replace (Ascii.eqb c "(" || Ascii.eqb c ")" || Ascii.eqb c " ")
        with false. reflexivity.
Qed.

Lemma compile_rpn_alphabet_aux stack_base expr :
  match compile_rpn stack_base expr with
  | Code _ => all_compilable expr = true
  | Abort => all_compilable expr = false
  | Undefined => True
  end.
Proof.
  unfold compile_rpn.
  pose proof (compile_loop_alphabet (String.length expr) expr stack_base
                [jit_getarg JIT_R2] (Nat.le_refl _)) as H.
  destruct (compile_loop expr stack_base [jit_getarg JIT_R2]); exact H.
Qed.

(** X12.  The alphabet of the back end: [compile_rpn] produces code
    only for a text made of digits, [+ - * /], parentheses and blanks,
    and it gives up with "cannot compile" only on a text that holds
    some other character. *)
Theorem compile_rpn_alphabet (stack_base : Z) (expr : string) :
  match compile_rpn stack_base expr with
  | Code _ => all_compilable expr = true
  | Abort => all_compilable expr = false
  | Undefined => True
  end.
Proof. exact (compile_rpn_alphabet_aux stack_base expr). Qed.

(** X13.  A line the parser accepts but the back end has no branch for
    ends the session: [eval] hands [compile_rpn] the rendering up to its
    first NUL byte, and when that text holds a character outside the
    back end's alphabet (a variable, or one of [= ? . ! []), [main]
    prints nothing and stops in [abort()], or in the undefined behaviour
    of an overlong number met before that character. *)
Theorem uncompilable_line_ends_the_session
  (fuel : nat) (w : jit_word) (stack_base : Z) (garbage : nat -> nat -> Z)
  (line rest : string) (t : Sexp) :
  expr fuel line = Returns t ->
  no_newline line = true ->
  all_compilable (c_str (to_string t)) = false ->
  main (S fuel) w stack_base garbage (line ++ String newline rest)
  = Aborts [] \/
  main (S fuel) w stack_base garbage (line ++ String newline rest)
  = BehavesUndefined [].
Proof.
  intros Hexpr Hline Htext. unfold main. cbn [main_loop].
  unfold getline. cbn [eofbit failbit orb unread].
  rewrite read_line_found by exact Hline. rewrite Hexpr.
  pose proof (compile_rpn_alphabet_aux stack_base (c_str (to_string t))) as H.
  unfold eval.
  destruct (compile_rpn stack_base (c_str (to_string t)));
    [congruence | left; reflexivity | right; reflexivity].
Qed.

Lemma uncompilable_line_ends_the_session_witness :
  main 11 Word64 (-128) (fun _ _ => 0)
       ("x = 1" ++ String newline "2 + 2")
  = Aborts [] \/
  main 11 Word64 (-128) (fun _ _ => 0)
       ("x = 1" ++ String newline "2 + 2")
  = BehavesUndefined [].
Proof.
  apply (uncompilable_line_ends_the_session 10 Word64 (-128) (fun _ _ => 0)
           "x = 1" "2 + 2" (mkS "=" [mkS "x" []; mkS "1" []]));
    reflexivity.
Defined.

Lemma wrap_range bits z :
  0 < bits -> - 2 ^ (bits - 1) <= wrap bits z < 2 ^ (bits - 1).
Proof.
  intros Hb. unfold wrap.
  assert (E : 2 ^ bits = 2 * 2 ^ (bits - 1)).
  { replace bits with (Z.succ (bits - 1)) at 1 by lia.
    rewrite Z.pow_succ_r by lia. reflexivity. }
  assert (0 < 2 ^ (bits - 1)) by (apply Z.pow_pos_nonneg; lia).
  pose proof (Z.mod_pos_bound (z + 2 ^ (bits - 1)) (2 ^ bits) ltac:(lia)).
  lia.
Qed.

(** Returning as [int] what a register holds after an operation. *)
Lemma wrap_32_word w z : wrap 32 (wrap (word_bits w) z) = wrap 32 z.
Proof.
  destruct w; cbn [word_bits].
  - apply wrap_small; [lia | apply wrap_range; lia].
  - unfold wrap at 2.
    rewrite (Z.mod_eq (z + 2 ^ (64 - 1)) (2 ^ 64))
      by (vm_compute; discriminate).
    unfold wrap. f_equal.
    replace (z + 2 ^ (64 - 1)
             - 2 ^ 64 * ((z + 2 ^ (64 - 1)) / 2 ^ 64) - 2 ^ (64 - 1)
             + 2 ^ (32 - 1))
      with (z + 2 ^ (32 - 1)
            + (- (2 ^ 32 * ((z + 2 ^ (64 - 1)) / 2 ^ 64))) * 2 ^ 32).
    + apply Z.mod_add. vm_compute. discriminate.
    + change (2 ^ 64) with (2 ^ 32 * 2 ^ 32). ring.
Qed.

Lemma is_sign_inv c : is_sign c = true -> c = "+"%char \/ c = "-"%char.
Proof.
  unfold is_sign. intros H. apply orb_prop in H as [H | H];
    apply Ascii.eqb_eq in H; auto.
Qed.

Lemma frame_slot_base stack_base :
  frame_slot stack_base stack_base = Some 0%nat.
Proof.
  rewrite (frame_slot_at stack_base stack_base 0);
    [reflexivity | lia | unfold sizeof_int; lia].
Qed.

(** X14.  A sign is not a negation in the back end: [-n] and [+n] parse
    to a one-operand node rendered [n -] and [n +], which [compile_rpn]
    compiles as the two-operand operator; its left operand is the slot
    below the first push, where the push stored what [JIT_R0] held on
    entry.  So the call yields that leftover value minus (plus) [n]. *)
Theorem sign_operates_on_entry_register
  (w : jit_word) (stack_base r0 r1 r2 a : Z) (junk : nat -> Z)
  (c : ascii) (n : string) :
  is_sign c = true -> numeral n = true ->
  rpn_returns (String c n) (n ++ " " ++ string1 c) /\
  eval_call w stack_base (n ++ " " ++ string1 c) (entry r0 r1 r2 a junk)
  = Some (Value (signed_value c r0 (atoi n))).
Proof.
  intros Hc Hn. pose proof (numeral_literal n Hn) as Hlit.
  destruct (literal_inv n Hlit) as [Hne Hd]. split.
  - exists 4%nat. unfold rpn, expr. rewrite Lexer_new_tokens.
    assert (Hlex : lex_loop (String c n) []
                   = [mkToken Op (string1 c); mkToken Atom n]).
    { rewrite lex_loop_operator
        by (destruct (is_sign_inv c Hc) as [-> | ->]; reflexivity).
      replace (lex_loop n) with (lex_loop (n ++ ""))
        by (rewrite append_nil_r; reflexivity).
      rewrite lex_loop_number, lex_loop_nil by (auto; reflexivity).
      reflexivity. }
    rewrite Hlex.
    destruct (is_sign_inv c Hc) as [-> | ->]; cbn; rewrite append_assoc;
      reflexivity.
  - change (n ++ " " ++ string1 c)%string with (text [Num n; Sym c]).
    assert (Hok : forallb word_ok [Num n; Sym c] = true)
      by (cbn [forallb word_ok]; rewrite Hn;
          destruct (is_sign_inv c Hc) as [-> | ->]; reflexivity).
    unfold eval_call, eval, compile_rpn.
    rewrite c_str_text, compile_loop_text by exact Hok.
    f_equal. cbn [app emitted jit_run].
    rewrite frame_slot_base.
    replace (stack_base + sizeof_int - sizeof_int) with stack_base by lia.
    rewrite frame_slot_base.
    cbn [entry set_reg set_frame get_reg R0 R1 R2 arg frame
         length map seq Nat.ltb Nat.leb].
    unfold signed_value.
    destruct (is_sign_inv c Hc) as [-> | ->];
      cbn [op_insn Ascii.eqb Bool.eqb jit_run set_reg get_reg R0 R1 R2
           arg frame];
      rewrite list_lookup_insert_eq by (simpl; lia);
      rewrite (wrap_word_fits w _ (numeral_fits n Hn)), wrap_32_word;
      reflexivity.
Qed.

Lemma sign_operates_on_entry_register_witness :
  rpn_returns "-3" "3 -" /\
  eval_call Word64 (-128) "3 -" (entry 10 0 0 0 (fun _ => 0))
  = Some (Value 7).
Proof.
  apply (sign_operates_on_entry_register Word64 (-128) 10 0 0 0 (fun _ => 0)
           "-"%char "3"); reflexivity.
Defined.

Lemma frame_slot_beyond stack_base :
  frame_slot stack_base (stack_base + sizeof_int * 32) = None.
Proof.
  unfold frame_slot.
  replace (stack_base + sizeof_int * 32 - stack_base) with (sizeof_int * 32)
    by lia.
  reflexivity.
Qed.

(** Pushes that outnumber the free slots run into the end of the frame. *)
Lemma jit_run_overflow w stack_base : forall ns k m ws post,
  length (frame m) = 32%nat -> forallb numeral ns = true ->
  (32 < k + length ns)%nat -> (k <= 32)%nat ->
  jit_run w stack_base
    (emitted (stack_base + sizeof_int * Z.of_nat k) (map Num ns ++ ws) ++ post)
    m
  = Fault.
Proof.
  induction ns as [|n ns IH]; intros k m ws post Hlen Hns Hk Hk'.
  { simpl in Hk. lia. }
  cbn [forallb] in Hns. apply andb_prop in Hns as [Hn Hns].
  cbn [map app emitted].
  destruct (Nat.eq_dec k 32%nat) as [-> | Hne].
  - cbn [jit_run]. change (Z.of_nat 32%nat) with 32.
    rewrite frame_slot_beyond. reflexivity.
  - rewrite (jit_run_push _ _ _ _ _ k);
      [ | rewrite <- (Nat2Z.id k) at 2; apply frame_slot_at; [lia | reflexivity]
        | lia | exact (numeral_fits n Hn) ].
    replace (stack_base + sizeof_int * Z.of_nat k + sizeof_int)
      with (stack_base + sizeof_int * Z.of_nat (S k))
      by (unfold sizeof_int; lia).
    apply IH; [ | exact Hns | simpl in Hk; lia | lia].
    cbn [frame]. rewrite length_insert. exact Hlen.
Qed.



Lemma is_right_op_inv c : is_right_op c = true -> c = "="%char \/ c = "."%char.
Proof.
  unfold is_right_op. intros H. apply orb_prop in H as [H | H];
    apply Ascii.eqb_eq in H; auto.
Qed.

Lemma expr_bp_chain c :
  is_right_op c = true ->
  forall ns n fuel bp,
    0 <= bp <= snd (infix_binding_power c) ->
    (2 * length ns + 2 <= fuel)%nat ->
    expr_bp fuel (cursor_on (chain_tokens c n ns ++ [EofToken])) bp
    = Returns (right_tree c n ns, cursor_on [EofToken]).
Proof.
  intros Hc. induction ns as [|n' ns IH]; intros n fuel bp Hbp Hfuel.
  { destruct fuel as [|[|fuel]]; simpl in Hfuel; try lia. reflexivity. }
  simpl length in Hfuel.
  destruct fuel as [|[|fuel]]; try lia.
  cbn [chain_tokens app expr_bp]. rewrite next_cursor_on. cbn [type value].
  cbn [expr_loop]. rewrite peek_cursor_on. cbn [hd type value].
  rewrite next_cursor_on. cbn [snd].
  assert (Hrhs : expr_bp fuel (cursor_on (chain_tokens c n' ns ++ [EofToken]))
                         (snd (infix_binding_power c))
                 = Returns (right_tree c n' ns, cursor_on [EofToken])).
  { apply IH; [|lia].
    destruct (is_right_op_inv c Hc) as [-> | ->]; simpl; lia. }
  destruct (is_right_op_inv c Hc) as [-> | ->];
    cbn [string1 char0 postfix_binding_power infix_binding_power
         Ascii.eqb Bool.eqb snd fst] in *;
    (replace (-1 >=? bp) with false
       by (symmetry; rewrite Z.geb_leb; apply Z.leb_gt; lia));
    [replace (2 <? bp) with false by (symmetry; apply Z.ltb_ge; lia)
    |replace (14 <? bp) with false by (symmetry; apply Z.ltb_ge; lia)];
    rewrite Hrhs; cbn [bind];
    (destruct fuel as [|fuel]; [lia|]); reflexivity.
Qed.

Lemma chain_tokens_plain c n ns :
  is_right_op c = true -> forallb literal (n :: ns) = true ->
  forallb plain_token (chain_tokens c n ns) = true.
Proof.
  intros Hc. revert n. induction ns as [|n' ns IH]; intros n H.
  - cbn [forallb] in H. apply andb_prop in H as [Hn _].
    cbn [chain_tokens forallb]. unfold plain_token. cbn [type value].
    rewrite Hn. reflexivity.
  - cbn [forallb] in H. apply andb_prop in H as [Hn H].
    cbn [chain_tokens forallb]. unfold plain_token at 1 2. cbn [type value].
    rewrite Hn. cbn [andb].
    replace (op_text (string1 c)) with true
      by (destruct (is_right_op_inv c Hc) as [-> | ->]; reflexivity).
    cbn [andb]. apply IH. exact H.
Qed.

Lemma postfix_right_tree c ns : forall n,
  postfix (right_tree c n ns) = (n :: ns) ++ repeat (string1 c) (length ns).
Proof.
  induction ns as [|n' ns IH]; intros n; [reflexivity|].
  change (right_tree c n (n' :: ns))
    with (mkS (string1 c) [mkS n []; right_tree c n' ns]).
  rewrite postfix_node. cbn [flat_map]. rewrite IH, postfix_node.
  cbn [flat_map app length repeat]. rewrite app_nil_r.
  do 2 f_equal. rewrite <- app_assoc. f_equal.
  symmetry. apply (repeat_cons (length ns) (string1 c)).
Qed.

(** X16.  The operators [=] and [.] group to the right: a chain of
    numbers joined by one of them, with one blank between tokens, parses
    to the tree whose right operand is the rest of the chain, and is
    rendered as the numbers in order followed by one operator for each
    join. *)
Theorem assignment_chain_groups_right
  (c : ascii) (n : string) (ns : list string) :
  is_right_op c = true -> forallb literal (n :: ns) = true ->
  expr_returns (chain_text c n ns) (right_tree c n ns) /\
  rpn_returns (chain_text c n ns)
    (String.concat " " ((n :: ns) ++ repeat (string1 c) (length ns))).
Proof.
  intros Hc Hns.
  assert (E : expr (2 * length ns + 2) (chain_text c n ns)
              = Returns (right_tree c n ns)).
  { unfold expr, chain_text. rewrite Lexer_new_tokens.
    rewrite lex_loop_plain, app_nil_l by (apply chain_tokens_plain; assumption).
    fold (cursor_on (chain_tokens c n ns ++ [EofToken])).
    rewrite (expr_bp_chain c Hc); [reflexivity | | lia].
    destruct (is_right_op_inv c Hc) as [-> | ->]; simpl; lia. }
  split; [eexists; exact E|].
  exists (2 * length ns + 2)%nat. unfold rpn. rewrite E. cbn [bind].
  rewrite to_string_postfix, postfix_right_tree. reflexivity.
Qed.

Lemma assignment_chain_groups_right_witness :
  expr_returns "1 = 2 = 3"
    (mkS "=" [mkS "1" []; mkS "=" [mkS "2" []; mkS "3" []]]) /\
  rpn_returns "1 = 2 = 3" "1 2 3 = =".
Proof.
  apply (assignment_chain_groups_right "="%char "1" ["2"; "3"]); reflexivity.
Defined.
